(** * Sprite animation and hitbox collision: a shallow embedding

    The development follows two source files.

    - [animation.py]: the [Animation] clip record and the
      [AnimationManager] playback state machine.
    - [pygine/sprite.py]: the [AnimatedSprite] hitbox geometry and the
      collision tests built on it.

    Number model.  Python floats are idealised.  The playback timer only
    needs field operations and comparisons, so it is modelled by exact
    rationals ([Q]) and stays executable.  The hitbox geometry calls
    [math.sqrt], [math.cos] and [math.sin], so it is modelled by the real
    numbers ([R]) with the functions of the same names.  Rounding,
    infinities and NaN are outside both models.  Python [int] values are
    modelled by [Z].

    Overflow.  Two operations of the collision code raise
    [OverflowError] in Python: [x ** 2] on a float whose square leaves
    the float range, and [math.sqrt(n)] on an [int] too large to convert
    to a float.  The collision tests of module [Sprite] leave both out:
    they describe the decisions of the geometry on coordinates of
    ordinary size.  Module [Overflow] repeats the collision tests with
    both error paths in place; the statements about which calls return,
    and about the two call orders, are made there.

    Timer.  Statements about the call of [update] at which the timer
    reaches the frame duration are made for time steps that floats carry
    out as the rationals do: a step of one frame duration from a timer
    at zero, or a step of at least one frame duration from a timer that
    is not negative. *)

From Stdlib Require Import ZArith QArith Qabs Qreals Reals Lra Lia List Bool.
From stdpp Require Import gmap strings.
From Stdlib Require Import Psatz.
Import ListNotations.

(** ** Exceptions

    Fallible Python code returns a [result]: either a value or the
    exception it raises. *)

Inductive exn : Type :=
| ZeroDivisionError
| ValueError
| TypeError
| IndexError
| UnboundLocalError
| OverflowError.

Inductive result (A : Type) : Type :=
| Ok (a : A)
| Raise (e : exn).

Arguments Ok {A} a.
Arguments Raise {A} e.

Definition bind {A B : Type} (r : result A) (k : A -> result B) : result B :=
  match r with
  | Ok a => k a
  | Raise e => Raise e
  end.

Notation "'let*' x ':=' r 'in' k" := (bind r (fun x => k))
  (at level 10, x pattern, r at level 100, k at level 200).

Definition returns {A : Type} (r : result A) : Prop := exists a, r = Ok a.

(** ** animation.py *)

Module Anim.

Open Scope Q_scope.

(** The [Animation] dataclass.  [frame_duration] and [total_duration] are
    the two attributes that [__post_init__] stores. *)
Record Animation : Type := mkAnimation {
  name : string;
  frames : list Z;
  fps : Q;
  loop : bool;
  frame_duration : Q;
  total_duration : Q
}.

Definition len {A : Type} (l : list A) : Z := Z.of_nat (length l).

(** The constructor followed by [__post_init__]: an empty frame list or a
    non-positive rate raises [ValueError]. *)
Definition new_Animation (n : string) (fs : list Z) (rate : Q) (lp : bool)
  : result Animation :=
  match fs with
  | [] => Raise ValueError
  | _ :: _ =>
      if Qle_bool rate 0 then Raise ValueError
      else
        let fd := 1 / rate in
        Ok (mkAnimation n fs rate lp fd (inject_Z (len fs) * fd))
  end.

Record AnimationManager : Type := mkManager {
  animations : gmap string Animation;
  current_animation : option Animation;
  current_animation_name : option string;
  current_frame_index : Z;
  frame_timer : Q;
  start_time : Q;
  is_playing : bool;
  is_paused : bool;
  finished : bool
}.

(** [AnimationManager.__init__] *)
Definition init : AnimationManager :=
  mkManager ∅ None None 0%Z 0 0 false false false.

(** [add_animation]: the clip is stored under its own name, replacing an
    older clip of that name.  The active clip reference is not touched. *)
Definition add_animation (m : AnimationManager) (a : Animation) : AnimationManager :=
  mkManager (<[name a := a]> (animations m))
            (current_animation m) (current_animation_name m)
            (current_frame_index m) (frame_timer m) (start_time m)
            (is_playing m) (is_paused m) (finished m).

(** [play_animation].  [now] is the value [time.time()] returns during the
    call.  The result pairs the returned boolean with the new state. *)
Definition play_animation (m : AnimationManager) (now : Q) (n : string)
    (restart : bool) : bool * AnimationManager :=
  match animations m !! n with
  | None => (false, m)
  | Some animation =>
      if bool_decide (current_animation_name m = Some n)
         && is_playing m && negb restart && negb (finished m)
      then (true, m)
      else (true,
            mkManager (animations m) (Some animation) (Some n)
                      0%Z 0 now true false false)
  end.

(** [stop] *)
Definition stop (m : AnimationManager) : AnimationManager :=
  mkManager (animations m) (current_animation m) (current_animation_name m)
            0%Z 0 (start_time m) false false false.

(** [pause] *)
Definition pause (m : AnimationManager) : AnimationManager :=
  if is_playing m then
    mkManager (animations m) (current_animation m) (current_animation_name m)
              (current_frame_index m) (frame_timer m) (start_time m)
              (is_playing m) true (finished m)
  else m.

(** [resume] *)
Definition resume (m : AnimationManager) : AnimationManager :=
  if is_playing m && is_paused m then
    mkManager (animations m) (current_animation m) (current_animation_name m)
              (current_frame_index m) (frame_timer m) (start_time m)
              (is_playing m) false (finished m)
  else m.

(** The assignments of [update] to the timing and state attributes. *)
Definition with_playback (m : AnimationManager) (idx : Z) (timer : Q)
    (playing fin : bool) : AnimationManager :=
  mkManager (animations m) (current_animation m) (current_animation_name m)
            idx timer (start_time m) playing (is_paused m) fin.

(** [update]: one conditional check per call. *)
Definition update (m : AnimationManager) (dt : Q) : AnimationManager :=
  if negb (is_playing m) || is_paused m then m
  else
    match current_animation m with
    | None => m
    | Some a =>
        if finished m && negb (loop a) then m
        else
          let timer := frame_timer m + dt in
          if Qle_bool (frame_duration a) timer then
            let idx := (current_frame_index m + 1)%Z in
            if (len (frames a) <=? idx)%Z then
              if loop a then
                with_playback m 0%Z 0 (is_playing m) (finished m)
              else
                with_playback m (len (frames a) - 1)%Z 0 false true
            else with_playback m idx 0 (is_playing m) (finished m)
          else
            with_playback m (current_frame_index m) timer
                          (is_playing m) (finished m)
    end.

(** [remove_animation] *)
Definition remove_animation (m : AnimationManager) (n : string)
  : bool * AnimationManager :=
  match animations m !! n with
  | Some _ =>
      let m1 := if bool_decide (current_animation_name m = Some n)
                then stop m else m in
      (true,
       mkManager (delete n (animations m1))
                 (current_animation m1) (current_animation_name m1)
                 (current_frame_index m1) (frame_timer m1) (start_time m1)
                 (is_playing m1) (is_paused m1) (finished m1))
  | None => (false, m)
  end.

(** [clear_animations] *)
Definition clear_animations (m : AnimationManager) : AnimationManager :=
  let m1 := stop m in
  mkManager ∅ (current_animation m1) (current_animation_name m1)
            (current_frame_index m1) (frame_timer m1) (start_time m1)
            (is_playing m1) (is_paused m1) (finished m1).

(** The public operations that change a manager, as a command type. *)
Inductive op : Type :=
| OpAdd (a : Animation)
| OpPlay (now : Q) (n : string) (restart : bool)
| OpStop
| OpPause
| OpResume
| OpUpdate (dt : Q)
| OpRemove (n : string)
| OpClear.

Definition step (m : AnimationManager) (o : op) : AnimationManager :=
  match o with
  | OpAdd a => add_animation m a
  | OpPlay now n restart => snd (play_animation m now n restart)
  | OpStop => stop m
  | OpPause => pause m
  | OpResume => resume m
  | OpUpdate dt => update m dt
  | OpRemove n => snd (remove_animation m n)
  | OpClear => clear_animations m
  end.

Definition run (ops : list op) (m : AnimationManager) : AnimationManager :=
  fold_left step ops m.

(** States that a fresh manager reaches through the public operations. *)
Inductive reachable : AnimationManager -> Prop :=
| reach_init : reachable init
| reach_step m o : reachable m -> reachable (step m o).

(** [n] calls of [update] with the same [dt]. *)
Fixpoint update_n (n : nat) (m : AnimationManager) (dt : Q) : AnimationManager :=
  match n with
  | O => m
  | S k => update_n k (update m dt) dt
  end.

(** The invariant of the data model: a set [finished] flag means the
    active clip does not loop and the index is on its last frame. *)
Definition finished_inv (m : AnimationManager) : Prop :=
  finished m = true ->
  exists a, current_animation m = Some a /\ loop a = false /\
            current_frame_index m = (len (frames a) - 1)%Z.

(** A playing manager plays a registered name. *)
Definition playing_registered (m : AnimationManager) : Prop :=
  is_playing m = true ->
  exists n, current_animation_name m = Some n /\
            is_Some (animations m !! n).

(** *** Queries *)

(** [x / y] on two floats. *)
Definition time_div (x y : Q) : result Q :=
  if Qeq_bool y 0 then Raise ZeroDivisionError else Ok (x / y).

(** [has_animation] *)
Definition has_animation (m : AnimationManager) (n : string) : bool :=
  match animations m !! n with
  | Some _ => true
  | None => false
  end.

(** [get_animation_progress].  The unused local [frame_progress] divides
    by a length that is not zero at that point and is left out. *)
Definition get_animation_progress (m : AnimationManager) : result Q :=
  match current_animation m with
  | None => Ok 0
  | Some a =>
      match frames a with
      | [] => Ok 0
      | _ :: _ =>
          let* within_frame_progress :=
            time_div (frame_timer m) (frame_duration a) in
          let total_progress :=
            (inject_Z (current_frame_index m) + within_frame_progress)
            / inject_Z (len (frames a)) in
          Ok (if Qle_bool 1 total_progress then 1 else total_progress)
      end
  end.

(** *** Vocabulary of the further properties *)

(** What the constructor guarantees about a clip. *)
Definition valid_clip (a : Animation) : Prop :=
  frames a <> [] /\ 0 < frame_duration a.

(** Operations as a program issues them: clips come from the constructor
    and time steps are not negative. *)
Definition sane_op (o : op) : Prop :=
  match o with
  | OpAdd a => valid_clip a
  | OpUpdate dt => 0 <= dt
  | _ => True
  end.

(** What holds once a clip has finished: playback is off and the timer
    is back at zero. *)
Definition finished_rest (m : AnimationManager) : Prop :=
  finished m = true -> is_playing m = false /\ frame_timer m = 0.

(** The timing invariant: registered and active clips are valid, the
    frame index is a valid position in the active clip, and the timer
    stays inside one frame duration. *)
Definition timing_inv (m : AnimationManager) : Prop :=
  (forall n a, animations m !! n = Some a -> valid_clip a) /\
  (0 <= current_frame_index m)%Z /\ 0 <= frame_timer m /\
  (forall a, current_animation m = Some a ->
     valid_clip a /\
     (current_frame_index m < len (frames a))%Z /\
     frame_timer m < frame_duration a).

End Anim.

(** ** pygine/sprite.py *)

Module Sprite.

Open Scope R_scope.

Definition point : Type := (R * R)%type.

(** The two values [hitbox_shape] takes; anything that is not ["circle"]
    is handled as a rectangle by the source. *)
Inductive shape : Type := Rect | Circle.

Definition is_circle (sh : shape) : bool :=
  match sh with Circle => true | Rect => false end.

(** The attributes of [AnimatedSprite] that carry state.  Surfaces and
    the cached pygame rectangles are left out; [total_frames] is
    [len(self.frames)]. *)
Record AnimatedSprite : Type := mkSprite {
  frame_size : Z * Z;
  _position : R * R;
  total_frames : Z;
  animation_manager : Anim.AnimationManager;
  current_frame : Z;
  rotation : R;
  scale : R;
  flip_x : bool;
  flip_y : bool;
  _mirrored : bool;
  velocity : R * R;
  acceleration : R * R;
  collision_offset : Z * Z;
  custom_hitbox_size : option (Z * Z);
  hitbox_shape : shape;
  hitbox_radius : option R
}.

(** [AnimatedSprite.__init__], with the atlas size passed in place of the
    loaded sheet. *)
Definition new_AnimatedSprite (fsize : Z * Z) (position : Z * Z) (nframes : Z)
  : AnimatedSprite :=
  mkSprite fsize (IZR (fst position), IZR (snd position)) nframes Anim.init 0%Z
           0 1 false false false (0, 0) (0, 0) (0%Z, 0%Z) None Rect None.

(** *** Numbers *)

(** Truth value of an optional attribute that is [None] or a pair. *)
Definition is_set {A : Type} (o : option A) : bool :=
  match o with Some _ => true | None => false end.

Definition float_lt (x y : R) : bool := if Rlt_dec x y then true else false.
Definition float_le (x y : R) : bool := if Rle_dec x y then true else false.
Definition float_eq (x y : R) : bool := if Req_dec_T x y then true else false.

(** [int(x)] on a float: truncation toward zero. *)
Definition py_int (x : R) : Z :=
  if Rle_dec 0 x then Int_part x else (- Int_part (- x))%Z.

(** [x / y] *)
Definition float_div (x y : R) : result R :=
  if float_eq y 0 then Raise ZeroDivisionError else Ok (x / y).

(** [math.sqrt] *)
Definition math_sqrt (x : R) : result R :=
  if float_lt x 0 then Raise ValueError else Ok (sqrt x).

(** The least magnitude that no longer fits a float: an [int] or an
    exact square from [2^1024 - 2^970] on rounds to infinity. *)
Definition float_overflow : Z := (2 ^ 1024 - 2 ^ 970)%Z.

(** [x ** 2] on a float: [OverflowError] when the square does not fit. *)
Definition float_pow2 (x : R) : result R :=
  if float_le (IZR float_overflow) (x ^ 2) then Raise OverflowError
  else Ok (x ^ 2).

(** [math.sqrt(n)] on an [int]: [n] is converted to a float first, which
    raises [OverflowError] when it does not fit. *)
Definition math_sqrt_int (n : Z) : result R :=
  if (float_overflow <=? Z.abs n)%Z then Raise OverflowError
  else math_sqrt (IZR n).

(** [math.radians] *)
Definition math_radians (deg : R) : R := deg * PI / 180.

(** [x % 360] on floats *)
Definition float_mod360 (x : R) : R := x - 360 * IZR (Int_part (x / 360)).

(** [min(l)] and [max(l)] of a list *)
Definition py_min (l : list R) : result R :=
  match l with
  | [] => Raise ValueError
  | x :: rest => Ok (fold_left Rmin rest x)
  end.

Definition py_max (l : list R) : result R :=
  match l with
  | [] => Raise ValueError
  | x :: rest => Ok (fold_left Rmax rest x)
  end.

(** [l[i]] for a non-negative index *)
Definition index {A : Type} (l : list A) (i : nat) : result A :=
  match nth_error l i with
  | Some a => Ok a
  | None => Raise IndexError
  end.

(** *** Animation, position and transform setters *)

Definition with_manager (s : AnimatedSprite) (m : Anim.AnimationManager)
  : AnimatedSprite :=
  mkSprite (frame_size s) (_position s) (total_frames s) m (current_frame s)
           (rotation s) (scale s) (flip_x s) (flip_y s) (_mirrored s)
           (velocity s) (acceleration s) (collision_offset s)
           (custom_hitbox_size s) (hitbox_shape s) (hitbox_radius s).

(** [mirror] *)
Definition mirror (s : AnimatedSprite) (mirrored : bool) : AnimatedSprite :=
  mkSprite (frame_size s) (_position s) (total_frames s) (animation_manager s)
           (current_frame s) (rotation s) (scale s) (flip_x s) (flip_y s)
           mirrored (velocity s) (acceleration s) (collision_offset s)
           (custom_hitbox_size s) (hitbox_shape s) (hitbox_radius s).

(** [play_animation] of the sprite: the mirror override is applied first,
    then the manager is asked to play. *)
Definition play_animation (s : AnimatedSprite) (now : Q) (n : string)
    (restart : bool) (mirror_arg : option bool) : bool * AnimatedSprite :=
  let s1 := match mirror_arg with
            | Some b => mirror s b
            | None => s
            end in
  let r := Anim.play_animation (animation_manager s1) now n restart in
  (fst r, with_manager s1 (snd r)).

(** [set_position] *)
Definition set_position (s : AnimatedSprite) (x y : R) : AnimatedSprite :=
  mkSprite (frame_size s) (x, y) (total_frames s) (animation_manager s)
           (current_frame s) (rotation s) (scale s) (flip_x s) (flip_y s)
           (_mirrored s) (velocity s) (acceleration s) (collision_offset s)
           (custom_hitbox_size s) (hitbox_shape s) (hitbox_radius s).

(** [set_rotation] *)
Definition set_rotation (s : AnimatedSprite) (angle : R) : AnimatedSprite :=
  mkSprite (frame_size s) (_position s) (total_frames s) (animation_manager s)
           (current_frame s) (float_mod360 angle) (scale s) (flip_x s)
           (flip_y s) (_mirrored s) (velocity s) (acceleration s)
           (collision_offset s) (custom_hitbox_size s) (hitbox_shape s)
           (hitbox_radius s).

(** [set_scale] *)
Definition set_scale (s : AnimatedSprite) (sc : R) : AnimatedSprite :=
  mkSprite (frame_size s) (_position s) (total_frames s) (animation_manager s)
           (current_frame s) (rotation s) (Rmax (1 / 10) sc) (flip_x s)
           (flip_y s) (_mirrored s) (velocity s) (acceleration s)
           (collision_offset s) (custom_hitbox_size s) (hitbox_shape s)
           (hitbox_radius s).

(** *** Hitbox configuration *)

Definition with_hitbox (s : AnimatedSprite) (off : Z * Z)
    (custom : option (Z * Z)) (sh : shape) (radius : option R)
  : AnimatedSprite :=
  mkSprite (frame_size s) (_position s) (total_frames s) (animation_manager s)
           (current_frame s) (rotation s) (scale s) (flip_x s) (flip_y s)
           (_mirrored s) (velocity s) (acceleration s) off custom sh radius.

(** [set_collision_rect] *)
Definition set_collision_rect (s : AnimatedSprite) (width height : Z)
    (offset_x offset_y : Z) : AnimatedSprite :=
  with_hitbox s (offset_x, offset_y) (Some (width, height)) Rect
              (hitbox_radius s).

(** [set_collision_circle] *)
Definition set_collision_circle (s : AnimatedSprite) (radius : R)
    (offset_x offset_y : Z) : AnimatedSprite :=
  with_hitbox s (offset_x, offset_y) (custom_hitbox_size s) Circle
              (Some radius).

(** [reset_collision_to_default] *)
Definition reset_collision_to_default (s : AnimatedSprite) : AnimatedSprite :=
  with_hitbox s (0%Z, 0%Z) None Rect None.

(** *** Hitbox corners *)

(** The centre every collision routine uses:
    [int(self._position[k]) + self.collision_offset[k]]. *)
Definition hitbox_center (s : AnimatedSprite) : Z * Z :=
  ((py_int (fst (_position s)) + fst (collision_offset s))%Z,
   (py_int (snd (_position s)) + snd (collision_offset s))%Z).

(** The [(width, height)] that [_get_corners] starts from: the custom
    size as it is, or else the frame size times the scale. *)
Definition hitbox_size (s : AnimatedSprite) : R * R :=
  match custom_hitbox_size s with
  | Some (w, h) => (IZR w, IZR h)
  | None => (IZR (fst (frame_size s)) * scale s,
             IZR (snd (frame_size s)) * scale s)
  end.

(** The rotation step of [_get_corners], applied to one corner. *)
Definition rotate_corner (cos_a sin_a : R) (c : point) : point :=
  (fst c * cos_a - snd c * sin_a, fst c * sin_a + snd c * cos_a).

(** The translation step of [_get_corners]. *)
Definition to_world (center : Z * Z) (c : point) : point :=
  (IZR (fst center) + fst c, IZR (snd center) + snd c).

(** [_get_corners] *)
Definition _get_corners (s : AnimatedSprite) : list point :=
  let size := hitbox_size s in
  let center := hitbox_center s in
  let half_w := fst size / 2 in
  let half_h := snd size / 2 in
  let corners :=
    [(- half_w, - half_h); (half_w, - half_h);
     (half_w, half_h); (- half_w, half_h)] in
  let corners :=
    if float_eq (rotation s) 0 then corners
    else
      let angle_rad := math_radians (- rotation s) in
      let cos_a := cos angle_rad in
      let sin_a := sin angle_rad in
      map (rotate_corner cos_a sin_a) corners in
  map (to_world center) corners.

(** *** Separating axis test *)

(** The projections of a polygon on an axis. *)
Definition project (normal : point) (corners : list point) : list R :=
  map (fun corner => fst corner * fst normal + snd corner * snd normal) corners.

(** The body of the inner loop of [_separating_axis_test] for the edge
    from [p1] to [p2].  [Ok None] stands for falling through to the next
    edge (after [continue] or after an axis that does not separate),
    [Ok (Some b)] for [return b].  The two squares are exact here;
    [Overflow.sat_edge] takes them with [float_pow2]. *)
Definition sat_edge (p1 p2 : point) (corners_a corners_b : list point)
  : result (option bool) :=
  let edge := (fst p2 - fst p1, snd p2 - snd p1) in
  let normal := (- snd edge, fst edge) in
  let* length := math_sqrt (fst normal ^ 2 + snd normal ^ 2) in
  if float_eq length 0 then Ok None
  else
    let* n0 := float_div (fst normal) length in
    let* n1 := float_div (snd normal) length in
    let normal := (n0, n1) in
    let proj_a := project normal corners_a in
    let proj_b := project normal corners_b in
    let* min_a := py_min proj_a in
    let* max_a := py_max proj_a in
    let* min_b := py_min proj_b in
    let* max_b := py_max proj_b in
    if float_lt max_a min_b || float_lt max_b min_a then Ok (Some false)
    else Ok None.

(** The inner loop, over the indices [idx] of [corners]. *)
Fixpoint sat_edges (idx : list nat) (corners corners_a corners_b : list point)
  : result (option bool) :=
  match idx with
  | [] => Ok None
  | i :: rest =>
      let* p1 := index corners i in
      let* p2 := index corners ((i + 1) mod length corners)%nat in
      let* r := sat_edge p1 p2 corners_a corners_b in
      match r with
      | Some b => Ok (Some b)
      | None => sat_edges rest corners corners_a corners_b
      end
  end.

(** The outer loop, over [all_corners]. *)
Fixpoint sat_polygons (all_corners : list (list point))
    (corners_a corners_b : list point) : result bool :=
  match all_corners with
  | [] => Ok true
  | corners :: rest =>
      let* r := sat_edges (seq 0 (length corners)) corners corners_a corners_b in
      match r with
      | Some b => Ok b
      | None => sat_polygons rest corners_a corners_b
      end
  end.

(** [_separating_axis_test] *)
Definition _separating_axis_test (corners_a corners_b : list point)
  : result bool :=
  sat_polygons [corners_a; corners_b] corners_a corners_b.

(** [_check_precise_rect_collision] *)
Definition _check_precise_rect_collision (self other : AnimatedSprite)
  : result bool :=
  let corners_a := _get_corners self in
  let corners_b := _get_corners other in
  _separating_axis_test corners_a corners_b.

(** *** Circles *)

(** Reading [hitbox_radius] in arithmetic or in a comparison: [None]
    raises [TypeError]. *)
Definition radius_of (s : AnimatedSprite) : result R :=
  match hitbox_radius s with
  | Some r => Ok r
  | None => Raise TypeError
  end.

(** [_check_circle_collision].  The root is taken of the exact sum
    here; [Overflow._check_circle_collision] takes it with
    [math_sqrt_int]. *)
Definition _check_circle_collision (self other : AnimatedSprite)
  : result bool :=
  let center1 := hitbox_center self in
  let center2 := hitbox_center other in
  let dx := (fst center2 - fst center1)%Z in
  let dy := (snd center2 - snd center1)%Z in
  let* distance := math_sqrt (IZR (dx * dx + dy * dy)) in
  let* r1 := radius_of self in
  let* r2 := radius_of other in
  Ok (float_le distance (r1 + r2)).

(** [_point_to_line_distance] *)
Definition _point_to_line_distance (pt line_p1 line_p2 : point) : result R :=
  let '(px, py) := pt in
  let '(x1, y1) := line_p1 in
  let '(x2, y2) := line_p2 in
  let line_vec := (x2 - x1, y2 - y1) in
  let point_vec := (px - x1, py - y1) in
  let line_len_sq :=
    fst line_vec * fst line_vec + snd line_vec * snd line_vec in
  if float_eq line_len_sq 0 then
    math_sqrt ((px - x1) * (px - x1) + (py - y1) * (py - y1))
  else
    let dot_product :=
      fst point_vec * fst line_vec + snd point_vec * snd line_vec in
    let* q := float_div dot_product line_len_sq in
    let t := Rmax 0 (Rmin 1 q) in
    let closest_x := x1 + t * fst line_vec in
    let closest_y := y1 + t * snd line_vec in
    let dx := px - closest_x in
    let dy := py - closest_y in
    math_sqrt (dx * dx + dy * dy).

(** The loop state of [_point_in_polygon]: the [inside] flag, the
    previous vertex and [xinters], which is unbound until its first
    assignment and keeps its value between iterations. *)
Record pip_state : Type := mkPip {
  pip_inside : bool;
  pip_p1 : point;
  pip_xinters : option R
}.

(** One iteration of the loop of [_point_in_polygon], for the vertex [p2]. *)
Definition pip_step (x y : R) (p2 : point) (st : pip_state)
  : result pip_state :=
  let '(p1x, p1y) := pip_p1 st in
  let '(p2x, p2y) := p2 in
  if float_lt (Rmin p1y p2y) y && float_le y (Rmax p1y p2y)
     && float_le x (Rmax p1x p2x)
  then
    let* xi :=
      if float_eq p1y p2y then Ok (pip_xinters st)
      else
        let* q := float_div ((y - p1y) * (p2x - p1x)) (p2y - p1y) in
        Ok (Some (q + p1x)) in
    let* flip :=
      if float_eq p1x p2x then Ok true
      else
        match xi with
        | Some xinters => Ok (float_le x xinters)
        | None => Raise UnboundLocalError
        end in
    Ok (mkPip (if flip then negb (pip_inside st) else pip_inside st) p2 xi)
  else Ok (mkPip (pip_inside st) p2 (pip_xinters st)).

Fixpoint pip_loop (x y : R) (polygon : list point) (idx : list nat)
    (st : pip_state) : result pip_state :=
  match idx with
  | [] => Ok st
  | i :: rest =>
      let* p2 := index polygon (i mod length polygon)%nat in
      let* st1 := pip_step x y p2 st in
      pip_loop x y polygon rest st1
  end.

(** [_point_in_polygon] *)
Definition _point_in_polygon (pt : point) (polygon : list point)
  : result bool :=
  let '(x, y) := pt in
  let n := length polygon in
  let* p1 := index polygon 0 in
  let* st := pip_loop x y polygon (seq 1 n) (mkPip false p1 None) in
  Ok (pip_inside st).

(** The edge loop of [_check_polygon_circle_collision]. *)
Fixpoint circle_edges (idx : list nat) (circle_center : point)
    (circle_sprite : AnimatedSprite) (polygon_corners : list point)
  : result bool :=
  match idx with
  | [] => Ok false
  | i :: rest =>
      let* p1 := index polygon_corners i in
      let* p2 := index polygon_corners ((i + 1) mod length polygon_corners)%nat in
      let* distance := _point_to_line_distance circle_center p1 p2 in
      let* r := radius_of circle_sprite in
      if float_le distance r then Ok true
      else circle_edges rest circle_center circle_sprite polygon_corners
  end.

(** The part of [_check_polygon_circle_collision] that follows the
    binding of [polygon_corners]. *)
Definition polygon_circle_test (circle_center : point)
    (circle_sprite : AnimatedSprite) (polygon_corners : list point)
  : result bool :=
  let* inside := _point_in_polygon circle_center polygon_corners in
  if inside then Ok true
  else
    circle_edges (seq 0 (length polygon_corners)) circle_center
                 circle_sprite polygon_corners.

(** [_check_polygon_circle_collision] *)
Definition _check_polygon_circle_collision
    (circle_sprite rect_sprite : AnimatedSprite) : result bool :=
  let c := hitbox_center circle_sprite in
  let circle_center := (IZR (fst c), IZR (snd c)) in
  let polygon_corners := _get_corners rect_sprite in
  polygon_circle_test circle_center circle_sprite polygon_corners.

(** The bounds [(left, right, top, bottom)] that the axis-aligned branch
    of [_check_circle_rect_collision] computes for the rectangle. *)
Definition rect_bounds (rect_sprite : AnimatedSprite) : R * R * R * R :=
  let rect_width := IZR (fst (frame_size rect_sprite)) * scale rect_sprite in
  let rect_height := IZR (snd (frame_size rect_sprite)) * scale rect_sprite in
  let rect_center_x := IZR (fst (hitbox_center rect_sprite)) in
  let rect_center_y := IZR (snd (hitbox_center rect_sprite)) in
  (rect_center_x - rect_width / 2, rect_center_x + rect_width / 2,
   rect_center_y - rect_height / 2, rect_center_y + rect_height / 2).

(** [_check_circle_rect_collision] *)
Definition _check_circle_rect_collision (self other : AnimatedSprite)
  : result bool :=
  let '(circle_sprite, rect_sprite) :=
    if is_circle (hitbox_shape self) then (self, other) else (other, self) in
  let c := hitbox_center circle_sprite in
  let circle_center := (IZR (fst c), IZR (snd c)) in
  if negb (float_eq (rotation rect_sprite) 0)
     || is_set (custom_hitbox_size rect_sprite)
  then _check_polygon_circle_collision circle_sprite rect_sprite
  else
    let '(rect_left, rect_right, rect_top, rect_bottom) :=
      rect_bounds rect_sprite in
    let closest_x := Rmax rect_left (Rmin (fst circle_center) rect_right) in
    let closest_y := Rmax rect_top (Rmin (snd circle_center) rect_bottom) in
    let dx := fst circle_center - closest_x in
    let dy := snd circle_center - closest_y in
    let* distance := math_sqrt (dx * dx + dy * dy) in
    let* r := radius_of circle_sprite in
    Ok (float_le distance r).

(** [collides_with] *)
Definition collides_with (self other : AnimatedSprite) : result bool :=
  if is_circle (hitbox_shape self) && is_circle (hitbox_shape other) then
    _check_circle_collision self other
  else if is_circle (hitbox_shape self) || is_circle (hitbox_shape other) then
    _check_circle_rect_collision self other
  else _check_precise_rect_collision self other.

(** *** Debug drawing *)

(** The pygame draw call that [debug_draw] issues (colour green, line
    width 2). *)
Inductive draw_call : Type :=
| draw_circle (center : Z * Z) (radius : Z)
| draw_polygon (points : list (Z * Z)).

(** [debug_draw] *)
Definition debug_draw (s : AnimatedSprite) : result draw_call :=
  if is_circle (hitbox_shape s) then
    let center := hitbox_center s in
    let* r := radius_of s in
    Ok (draw_circle center (py_int r))
  else
    let corners := _get_corners s in
    let int_corners := map (fun c => (py_int (fst c), py_int (snd c))) corners in
    Ok (draw_polygon int_corners).

(** *** Vocabulary of the properties *)

(** A hitbox configuration is well formed when a circle has its radius. *)
Definition well_formed (s : AnimatedSprite) : Prop :=
  hitbox_shape s = Circle -> is_Some (hitbox_radius s).

(** The corner derivation in the words of the specification, with the
    conversion [to_int] of the centre coordinate left open: half extents
    from the custom size or from frame size times scale, every corner
    rotated by the negated rotation, then moved to the integer centre
    plus offset. *)
Definition spec_corners (to_int : R -> Z) (s : AnimatedSprite) : list point :=
  let half_w :=
    match custom_hitbox_size s with
    | Some (w, _) => IZR w / 2
    | None => IZR (fst (frame_size s)) * scale s / 2
    end in
  let half_h :=
    match custom_hitbox_size s with
    | Some (_, h) => IZR h / 2
    | None => IZR (snd (frame_size s)) * scale s / 2
    end in
  let theta := math_radians (- rotation s) in
  let cx := IZR (to_int (fst (_position s)) + fst (collision_offset s)) in
  let cy := IZR (to_int (snd (_position s)) + snd (collision_offset s)) in
  let place (x y : R) : point :=
    (cx + (x * cos theta - y * sin theta),
     cy + (x * sin theta + y * cos theta)) in
  [place (- half_w) (- half_h); place half_w (- half_h);
   place half_w half_h; place (- half_w) half_h].


(** The x and the y coordinates of a polygon. *)
Definition xs (corners : list point) : list R := map fst corners.
Definition ys (corners : list point) : list R := map snd corners.

(** A list of coordinates multiplied by [k]. *)
Definition scaled (k : R) (l : list R) : list R := map (fun v => v * k) l.

(** Two coordinate ranges that do not overlap. *)
Definition ranges_disjoint (la lb : list R) : Prop :=
  exists min_a max_a min_b max_b,
    py_min la = Ok min_a /\ py_max la = Ok max_a /\
    py_min lb = Ok min_b /\ py_max lb = Ok max_b /\
    (max_a < min_b \/ max_b < min_a).

(** *** Movement, registration and the frame on show *)

Definition with_position (s : AnimatedSprite) (pos : R * R) : AnimatedSprite :=
  mkSprite (frame_size s) pos (total_frames s) (animation_manager s)
           (current_frame s) (rotation s) (scale s) (flip_x s) (flip_y s)
           (_mirrored s) (velocity s) (acceleration s) (collision_offset s)
           (custom_hitbox_size s) (hitbox_shape s) (hitbox_radius s).

(** [rotate] *)
Definition rotate (s : AnimatedSprite) (angle : R) : AnimatedSprite :=
  mkSprite (frame_size s) (_position s) (total_frames s) (animation_manager s)
           (current_frame s) (float_mod360 (rotation s + angle)) (scale s)
           (flip_x s) (flip_y s) (_mirrored s) (velocity s) (acceleration s)
           (collision_offset s) (custom_hitbox_size s) (hitbox_shape s)
           (hitbox_radius s).

(** [move] *)
Definition move (s : AnimatedSprite) (dx dy : R) : AnimatedSprite :=
  with_position s (fst (_position s) + dx, snd (_position s) + dy).

(** The test [0 <= f < len(self.frames)] on an atlas index. *)
Definition in_atlas (s : AnimatedSprite) (f : Z) : bool :=
  (0 <=? f)%Z && (f <? total_frames s)%Z.

(** [add_animation] of the sprite.  The warning it prints for dropped
    indices is left out. *)
Definition add_animation (s : AnimatedSprite) (n : string) (frames : list Z)
    (fps : Q) (loop : bool) : result AnimatedSprite :=
  let valid_frames := List.filter (in_atlas s) frames in
  let* animation := Anim.new_Animation n valid_frames fps loop in
  Ok (with_manager s (Anim.add_animation (animation_manager s) animation)).

(** The frame selection of [update], the statements between the call
    of [animation_manager.update] and the physics: the atlas frame that
    [self.current_frame] holds after them, [m] being the manager as that
    call left it. *)
Definition frame_to_show (s : AnimatedSprite) (m : Anim.AnimationManager)
  : result Z :=
  match Anim.current_animation m with
  | Some current_animation =>
      let frame_index := Anim.current_frame_index m in
      if (0 <=? frame_index)%Z
         && (frame_index <? Anim.len (Anim.frames current_animation))%Z
      then
        let* sprite_frame_index :=
          index (Anim.frames current_animation) (Z.to_nat frame_index) in
        Ok (if in_atlas s sprite_frame_index then sprite_frame_index
            else current_frame s)
      else Ok (current_frame s)
  | None => Ok (current_frame s)
  end.

(** *** Distances *)

(** [distance_to], for another sprite or for a point.  Between two
    sprites the differences are [int]s, so the squares are exact and
    [math.sqrt] receives an [int]; for a point the differences are
    floats and are squared with [**]. *)
Definition distance_to (self : AnimatedSprite) (other : AnimatedSprite + point)
  : result R :=
  let self_pos := (py_int (fst (_position self)), py_int (snd (_position self))) in
  match other with
  | inl o =>
      let other_pos := (py_int (fst (_position o)), py_int (snd (_position o))) in
      let dx := (fst other_pos - fst self_pos)%Z in
      let dy := (snd other_pos - snd self_pos)%Z in
      math_sqrt_int (dx ^ 2 + dy ^ 2)
  | inr other_pos =>
      let dx := fst other_pos - IZR (fst self_pos) in
      let dy := snd other_pos - IZR (snd self_pos) in
      let* dx2 := float_pow2 dx in
      let* dy2 := float_pow2 dy in
      math_sqrt (dx2 + dy2)
  end.

(** *** Sprites built through the public setters *)

Inductive sprite_op : Type :=
| SetPosition (x y : R)
| Move (dx dy : R)
| SetRotation (angle : R)
| Rotate (angle : R)
| SetScale (sc : R)
| Mirror (mirrored : bool)
| SetCollisionRect (width height offset_x offset_y : Z)
| SetCollisionCircle (radius : R) (offset_x offset_y : Z)
| ResetCollision.

Definition apply_op (s : AnimatedSprite) (o : sprite_op) : AnimatedSprite :=
  match o with
  | SetPosition x y => set_position s x y
  | Move dx dy => move s dx dy
  | SetRotation angle => set_rotation s angle
  | Rotate angle => rotate s angle
  | SetScale sc => set_scale s sc
  | Mirror b => mirror s b
  | SetCollisionRect w h ox oy => set_collision_rect s w h ox oy
  | SetCollisionCircle r ox oy => set_collision_circle s r ox oy
  | ResetCollision => reset_collision_to_default s
  end.

Definition build (fsize position : Z * Z) (nframes : Z) (ops : list sprite_op)
  : AnimatedSprite :=
  fold_left apply_op ops (new_AnimatedSprite fsize position nframes).

(** The frame shown is an index into the atlas. *)
Definition frame_valid (s : AnimatedSprite) : Prop :=
  (0 <= current_frame s < total_frames s)%Z.

(** What every sprite built this way satisfies. *)
Definition api_inv (s : AnimatedSprite) : Prop :=
  well_formed s /\ 1 / 10 <= scale s /\ 0 <= rotation s <= 360.

End Sprite.

(** ** pygine/sprite.py with [OverflowError]

    The collision tests again, with the two operations that raise
    [OverflowError].  What is not repeated here is shared with [Sprite]:
    the corners, and the circle-against-rectangle tests, which square by
    multiplication and take roots of floats only.  Where an [int] meets
    a float in the source (frame size times scale, centre plus corner)
    Python converts the [int], which fails only for an [int] beyond the
    float range; [in_range] below keeps frame sizes and centres far
    inside it, and the statements about calls that return are made for
    sprites [in_range]. *)

Module Overflow.

Import Sprite.
Open Scope R_scope.

(** The body of the inner loop of [_separating_axis_test]; the two
    squares of [normal[0] ** 2 + normal[1] ** 2] are taken from left to
    right. *)
Definition sat_edge (p1 p2 : point) (corners_a corners_b : list point)
  : result (option bool) :=
  let edge := (fst p2 - fst p1, snd p2 - snd p1) in
  let normal := (- snd edge, fst edge) in
  let* sq0 := float_pow2 (fst normal) in
  let* sq1 := float_pow2 (snd normal) in
  let* length := math_sqrt (sq0 + sq1) in
  if float_eq length 0 then Ok None
  else
    let* n0 := float_div (fst normal) length in
    let* n1 := float_div (snd normal) length in
    let normal := (n0, n1) in
    let proj_a := project normal corners_a in
    let proj_b := project normal corners_b in
    let* min_a := py_min proj_a in
    let* max_a := py_max proj_a in
    let* min_b := py_min proj_b in
    let* max_b := py_max proj_b in
    if float_lt max_a min_b || float_lt max_b min_a then Ok (Some false)
    else Ok None.

(** The inner loop, over the indices [idx] of [corners]. *)
Fixpoint sat_edges (idx : list nat) (corners corners_a corners_b : list point)
  : result (option bool) :=
  match idx with
  | [] => Ok None
  | i :: rest =>
      let* p1 := index corners i in
      let* p2 := index corners ((i + 1) mod length corners)%nat in
      let* r := sat_edge p1 p2 corners_a corners_b in
      match r with
      | Some b => Ok (Some b)
      | None => sat_edges rest corners corners_a corners_b
      end
  end.

(** The outer loop, over [all_corners]. *)
Fixpoint sat_polygons (all_corners : list (list point))
    (corners_a corners_b : list point) : result bool :=
  match all_corners with
  | [] => Ok true
  | corners :: rest =>
      let* r := sat_edges (seq 0 (length corners)) corners corners_a corners_b in
      match r with
      | Some b => Ok b
      | None => sat_polygons rest corners_a corners_b
      end
  end.

(** [_separating_axis_test] *)
Definition _separating_axis_test (corners_a corners_b : list point)
  : result bool :=
  sat_polygons [corners_a; corners_b] corners_a corners_b.

(** [_check_precise_rect_collision] *)
Definition _check_precise_rect_collision (self other : AnimatedSprite)
  : result bool :=
  let corners_a := _get_corners self in
  let corners_b := _get_corners other in
  _separating_axis_test corners_a corners_b.

(** [_check_circle_collision]: the centres are [int]s, so is the sum of
    the squares that [math.sqrt] receives. *)
Definition _check_circle_collision (self other : AnimatedSprite)
  : result bool :=
  let center1 := hitbox_center self in
  let center2 := hitbox_center other in
  let dx := (fst center2 - fst center1)%Z in
  let dy := (snd center2 - snd center1)%Z in
  let* distance := math_sqrt_int (dx * dx + dy * dy) in
  let* r1 := radius_of self in
  let* r2 := radius_of other in
  Ok (float_le distance (r1 + r2)).

(** [collides_with] *)
Definition collides_with (self other : AnimatedSprite) : result bool :=
  if is_circle (hitbox_shape self) && is_circle (hitbox_shape other) then
    _check_circle_collision self other
  else if is_circle (hitbox_shape self) || is_circle (hitbox_shape other) then
    _check_circle_rect_collision self other
  else _check_precise_rect_collision self other.

(** [collides_with_group].  The group is the list of its sprites in
    iteration order; object identity is an identifier paired with each
    sprite, [self_id] being the identifier of [self]. *)
Fixpoint collides_with_group (self_id : nat) (self : AnimatedSprite)
    (group : list (nat * AnimatedSprite)) : result (list (nat * AnimatedSprite)) :=
  match group with
  | [] => Ok []
  | (i, sprite) :: rest =>
      if negb (i =? self_id)%nat then
        let* hit := collides_with self sprite in
        let* collisions := collides_with_group self_id self rest in
        Ok (if hit then (i, sprite) :: collisions else collisions)
      else collides_with_group self_id self rest
  end.

(** *** Vocabulary of the properties *)

(** Coordinates of ordinary size: up to [10^150] pixels, well below
    the 1.3e154 or so whose square leaves the float range. *)
Definition coordinate_bound : Z := (10 ^ 150)%Z.

(** A sprite whose hitbox width, height and centre coordinates are of
    ordinary size, and whose frame size is, which the code converts to
    a float when it multiplies it by the scale. *)
Definition in_range (s : AnimatedSprite) : Prop :=
  Rabs (fst (hitbox_size s)) <= IZR coordinate_bound /\
  Rabs (snd (hitbox_size s)) <= IZR coordinate_bound /\
  (Z.abs (fst (hitbox_center s)) <= coordinate_bound)%Z /\
  (Z.abs (snd (hitbox_center s)) <= coordinate_bound)%Z /\
  (Z.abs (fst (frame_size s)) <= coordinate_bound)%Z /\
  (Z.abs (snd (frame_size s)) <= coordinate_bound)%Z.

(** A polygon whose vertex coordinates are of ordinary size. *)
Definition polygon_in_range (corners : list point) : Prop :=
  Forall (fun c => Rabs (fst c) <= IZR coordinate_bound /\
                   Rabs (snd c) <= IZR coordinate_bound) corners.

(** An edge both of whose normal components can be squared. *)
Definition edge_fits (p1 p2 : point) : Prop :=
  (snd p2 - snd p1) ^ 2 < IZR float_overflow /\
  (fst p2 - fst p1) ^ 2 < IZR float_overflow.

(** A polygon all of whose edges can be tested. *)
Definition edges_fit (corners : list point) : Prop :=
  forall i p1 p2,
    index corners i = Ok p1 ->
    index corners ((i + 1) mod length corners)%nat = Ok p2 ->
    edge_fits p1 p2.

End Overflow.

(** ** 1.py *)

Module WallDemo.

(** [collides_with_any] *)
Fixpoint collides_with_any (sprite : Sprite.AnimatedSprite)
    (sprites_list : list Sprite.AnimatedSprite) : result bool :=
  match sprites_list with
  | [] => Ok false
  | s :: rest =>
      let* hit := Overflow.collides_with sprite s in
      if hit then Ok true else collides_with_any sprite rest
  end.

End WallDemo.

(** ** Concrete clips, managers and sprites used by the examples *)

Module Fixtures.

(** The non-looping clip [[0,1,2]] at 10 frames per second. *)
Definition jump_clip : Anim.Animation :=
  Anim.mkAnimation "jump" [0; 1; 2]%Z 10 false (1 / 10)
                   (inject_Z 3 * (1 / 10))%Q.

(** The looping clip [[4,5,6,7]] at 8 frames per second. *)
Definition walk_clip : Anim.Animation :=
  Anim.mkAnimation "walk" [4; 5; 6; 7]%Z 8 true (1 / 8)
                   (inject_Z 4 * (1 / 8))%Q.

(** A second clip for the name ["jump"]. *)
Definition jump_clip_fast : Anim.Animation :=
  Anim.mkAnimation "jump" [2; 1]%Z 20 false (1 / 20)
                   (inject_Z 2 * (1 / 20))%Q.

(** A manager with both clips registered. *)
Definition two_clips : Anim.AnimationManager :=
  Anim.add_animation (Anim.add_animation Anim.init jump_clip) walk_clip.

(** ["jump"] freshly started. *)
Definition jump_started : Anim.AnimationManager :=
  snd (Anim.play_animation two_clips 0 "jump" false).

(** ["walk"] freshly started. *)
Definition walk_started : Anim.AnimationManager :=
  snd (Anim.play_animation two_clips 0 "walk" false).

(** The operations that play ["jump"] to its end. *)
Definition jump_to_end : list Anim.op :=
  [Anim.OpAdd jump_clip; Anim.OpPlay 0 "jump" false;
   Anim.OpUpdate (1 / 10); Anim.OpUpdate (1 / 10); Anim.OpUpdate (1 / 10)].

(** The operations that start ["walk"] and advance it once. *)
Definition walk_one_frame : list Anim.op :=
  [Anim.OpAdd walk_clip; Anim.OpPlay 0 "walk" false; Anim.OpUpdate (1 / 8)].

(** A 64x64 sprite at (100, 100) that is playing ["walk"]. *)
Definition hero : Sprite.AnimatedSprite :=
  Sprite.with_manager (Sprite.new_AnimatedSprite (64, 64)%Z (100, 100)%Z 16)
                      walk_started.


(** Two unrotated 64x64 sprites, 70 pixels apart. *)
Definition box_a : Sprite.AnimatedSprite :=
  Sprite.new_AnimatedSprite (64, 64)%Z (0, 0)%Z 1.
Definition box_b : Sprite.AnimatedSprite :=
  Sprite.new_AnimatedSprite (64, 64)%Z (70, 0)%Z 1.

(** A third 64x64 sprite, 60 pixels from the first. *)
Definition box_c : Sprite.AnimatedSprite :=
  Sprite.new_AnimatedSprite (64, 64)%Z (60, 0)%Z 1.

(** Two sprites after [set_collision_rect(10, 0)]: hitboxes of height
    zero, 100 pixels apart on the same line. *)
Definition flat_a : Sprite.AnimatedSprite :=
  Sprite.set_collision_rect (Sprite.new_AnimatedSprite (64, 64)%Z (0, 0)%Z 1)
                            10 0 0 0.


(** Circles of radius 10 at the origin, 25 pixels and 15 pixels to its
    right. *)
Definition disc (x : Z) : Sprite.AnimatedSprite :=
  Sprite.set_collision_circle
    (Sprite.new_AnimatedSprite (64, 64)%Z (x, 0)%Z 1) 10 0 0.

(** The unit square, as a polygon. *)
Definition unit_square : list Sprite.point :=
  [(0, 0); (1, 0); (1, 1); (0, 1)]%R.

(** A 64x64 sprite at x = 1e160 after [set_scale(1e154)]: its hitbox is
    6.4e155 pixels wide. *)
Definition far_big : Sprite.AnimatedSprite :=
  Sprite.set_scale
    (Sprite.new_AnimatedSprite (64, 64)%Z ((10 ^ 160)%Z, 0%Z) 1)
    (IZR (10 ^ 154)).

(** A circle of radius 30 and a sprite turned by 45 degrees. *)
Definition ball : Sprite.AnimatedSprite :=
  Sprite.set_collision_circle
    (Sprite.new_AnimatedSprite (64, 64)%Z (500, 200)%Z 1) 30 0 0.
Definition tilted : Sprite.AnimatedSprite :=
  Sprite.set_rotation (Sprite.new_AnimatedSprite (64, 64)%Z (400, 400)%Z 1) 45.

End Fixtures.

(** * Properties of the animation manager *)

Module AnimProofs.

Import Anim.
Open Scope Q_scope.

Lemma new_Animation_inv n fs rate lp a :
  new_Animation n fs rate lp = Ok a ->
  fs <> [] /\ 0 < rate /\
  a = mkAnimation n fs rate lp (1 / rate) (inject_Z (len fs) * (1 / rate)).
Proof.
  unfold new_Animation. destruct fs as [|f fs']; [discriminate|].
  destruct (Qle_bool rate 0) eqn:E; [discriminate|].
  intros H. injection H as <-. split; [discriminate|]. split; [|reflexivity].
  apply Qnot_le_lt. intros Hle. apply Qle_bool_iff in Hle. congruence.
Qed.

(** What one call of [update] does to a manager that is playing an
    unfinished clip whose timer has just been reset, when [dt] is the
    frame duration. *)
Lemma update_due m a dt :
  current_animation m = Some a ->
  is_playing m = true -> is_paused m = false -> finished m = false ->
  frame_duration a <= frame_timer m + dt ->
  update m dt =
    let idx := (current_frame_index m + 1)%Z in
    if (len (frames a) <=? idx)%Z then
      if loop a then with_playback m 0%Z 0 true false
      else with_playback m (len (frames a) - 1)%Z 0 false true
    else with_playback m idx 0 true false.
Proof.
  intros Hc Hp Hq Hf Hd. unfold update. rewrite Hc, Hp, Hq, Hf. simpl.
  apply Qle_bool_iff in Hd. rewrite Hd. reflexivity.
Qed.

Lemma update_n_snoc k m dt :
  update_n (S k) m dt = update (update_n k m dt) dt.
Proof.
  revert m. induction k as [|k IH]; intros m; [reflexivity|].
  change (update_n (S (S k)) m dt) with (update_n (S k) (update m dt) dt).
  rewrite IH. reflexivity.
Qed.

(** While the next index stays inside the clip, [k] updates by one frame
    duration move the index forward by [k] and leave the timer at zero. *)
Lemma update_n_inside a k : forall m,
  current_animation m = Some a ->
  is_playing m = true -> is_paused m = false -> finished m = false ->
  frame_timer m == 0 -> 0 <= frame_duration a ->
  (current_frame_index m + Z.of_nat k < len (frames a))%Z ->
  let m' := update_n k m (frame_duration a) in
  current_animation m' = Some a /\
  is_playing m' = true /\ is_paused m' = false /\ finished m' = false /\
  frame_timer m' == 0 /\
  current_frame_index m' = (current_frame_index m + Z.of_nat k)%Z.
Proof.
  induction k as [|k IH]; intros m Hc Hp Hq Hf Ht Hd Hk; simpl.
  - repeat split; try assumption. lia.
  - assert (Hdue : frame_duration a <= frame_timer m + frame_duration a).
    { rewrite Ht. rewrite Qplus_0_l. apply Qle_refl. }
    rewrite (update_due m a _ Hc Hp Hq Hf Hdue). cbv zeta.
    destruct (len (frames a) <=? current_frame_index m + 1)%Z eqn:E.
    { apply Z.leb_le in E. lia. }
    specialize (IH (with_playback m (current_frame_index m + 1)%Z 0 true false)).
    simpl in IH.
    destruct IH as (H1 & H2 & H3 & H4 & H5 & H6);
      try assumption; try reflexivity; try lia.
    repeat split; try assumption. rewrite H6. lia.
Qed.

(** *** One frame advance per call *)

Lemma update_index_le m dt :
  (current_frame_index (update m dt) <= current_frame_index m + 1)%Z.
Proof.
  unfold update.
  destruct (negb (is_playing m) || is_paused m); [lia|].
  destruct (current_animation m) as [a|]; [|lia].
  destruct (finished m && negb (loop a)); [lia|].
  destruct (Qle_bool (frame_duration a) (frame_timer m + dt)); [|simpl; lia].
  destruct (len (frames a) <=? current_frame_index m + 1)%Z eqn:E;
    [apply Z.leb_le in E|]; [destruct (loop a)|]; simpl; unfold len in *; lia.
Qed.

(** C1.  A freshly started player of the non-looping clip [[0,1,2]] at
    rate 10 lands on frame index 1 after the single call [update(0.35)],
    although 0.35 s spans three frame durations; and for every manager
    and every [dt], one call of [update] raises the frame index by at
    most one. *)
Theorem C1_one_advance_per_call (m : AnimationManager) (n : string)
    (a : Animation) :
  new_Animation n [0; 1; 2]%Z 10 false = Ok a ->
  current_animation m = Some a ->
  is_playing m = true -> is_paused m = false -> finished m = false ->
  current_frame_index m = 0%Z -> frame_timer m == 0 ->
  current_frame_index (update m 0.35) = 1%Z /\
  (forall (m0 : AnimationManager) (dt : Q),
     (current_frame_index (update m0 dt) <= current_frame_index m0 + 1)%Z).
Proof.
  intros Ha Hc Hp Hq Hf Hi Ht. split; [|apply update_index_le].
  apply new_Animation_inv in Ha. destruct Ha as (_ & _ & ->).
  rewrite (update_due m _ 0.35 Hc Hp Hq Hf).
  - simpl. rewrite Hi. reflexivity.
  - simpl. rewrite Ht. vm_compute. discriminate.
Qed.

Lemma C1_one_advance_per_call_witness :
  current_frame_index (update Fixtures.jump_started 0.35) = 1%Z /\
  (forall (m0 : AnimationManager) (dt : Q),
     (current_frame_index (update m0 dt) <= current_frame_index m0 + 1)%Z).
Proof.
  apply (C1_one_advance_per_call Fixtures.jump_started "jump"
           Fixtures.jump_clip); reflexivity.
Defined.

(** *** A full pass through a clip *)

(** C2.  For a clip built with [N >= 1] frames at rate [R > 0] and a
    freshly played manager (index 0, timer 0), the calls of [update]
    with [dt = 1/R] walk through the clip one frame per call: after [k]
    calls, [k < N], the index is [k] and the clip is still playing; the
    [N]-th call brings a looping clip back to index 0, still playing,
    and ends a non-looping clip at index [N-1] with [finished] set and
    [is_playing] cleared. *)
Theorem C2_full_pass (m : AnimationManager) (n : string) (fs : list Z)
    (R : Q) (lp : bool) (a : Animation) :
  new_Animation n fs R lp = Ok a ->
  current_animation m = Some a ->
  is_playing m = true -> is_paused m = false -> finished m = false ->
  current_frame_index m = 0%Z -> frame_timer m == 0 ->
  (forall k : nat, (k < length fs)%nat ->
     current_frame_index (update_n k m (1 / R)) = Z.of_nat k /\
     is_playing (update_n k m (1 / R)) = true /\
     finished (update_n k m (1 / R)) = false) /\
  let m' := update_n (length fs) m (1 / R) in
  if lp then current_frame_index m' = 0%Z /\
             is_playing m' = true /\ finished m' = false
  else current_frame_index m' = (len fs - 1)%Z /\
       finished m' = true /\ is_playing m' = false.
Proof.
  intros Ha Hc Hp Hq Hf Hi Ht.
  apply new_Animation_inv in Ha. destruct Ha as (Hne & HR & ->).
  set (a := mkAnimation n fs R lp (1 / R) (inject_Z (len fs) * (1 / R))) in *.
  assert (Hfd : 0 <= frame_duration a).
  { simpl. unfold Qdiv. rewrite Qmult_1_l. apply Qlt_le_weak.
    apply Qinv_lt_0_compat. exact HR. }
  change (1 / R) with (frame_duration a).
  assert (Hin : forall k : nat, (k < length fs)%nat ->
            let mk := update_n k m (frame_duration a) in
            current_animation mk = Some a /\
            is_playing mk = true /\ is_paused mk = false /\
            finished mk = false /\ frame_timer mk == 0 /\
            current_frame_index mk = Z.of_nat k).
  { intros k Hk.
    assert (Hk' : (current_frame_index m + Z.of_nat k < len (frames a))%Z).
    { simpl. unfold len. rewrite Hi. lia. }
    destruct (update_n_inside a k m Hc Hp Hq Hf Ht Hfd Hk')
      as (H1 & H2 & H3 & H4 & H5 & H6).
    cbv zeta. rewrite H6, Hi. auto 10. }
  split.
  { intros k Hk. destruct (Hin k Hk) as (_ & H2 & _ & H4 & _ & H6). auto. }
  destruct (length fs) as [|k] eqn:Hlen.
  { destruct fs; [congruence|discriminate]. }
  destruct (Hin k ltac:(lia)) as (H1 & H2 & H3 & H4 & H5 & H6).
  cbv zeta. rewrite update_n_snoc.
  assert (Hdue : frame_duration a <=
                 frame_timer (update_n k m (frame_duration a)) + frame_duration a).
  { rewrite H5. rewrite Qplus_0_l. apply Qle_refl. }
  rewrite (update_due _ a _ H1 H2 H3 H4 Hdue). cbv zeta.
  rewrite H6.
  replace (len (frames a) <=? Z.of_nat k + 1)%Z with true.
  2:{ symmetry. apply Z.leb_le. simpl. unfold len. rewrite Hlen. lia. }
  simpl. destruct lp; simpl; auto.
Qed.

Lemma C2_full_pass_witness :
  (forall k : nat, (k < 3)%nat ->
     current_frame_index (update_n k Fixtures.jump_started (1 / 10)) = Z.of_nat k /\
     is_playing (update_n k Fixtures.jump_started (1 / 10)) = true /\
     finished (update_n k Fixtures.jump_started (1 / 10)) = false) /\
  current_frame_index (update_n 3 Fixtures.jump_started (1 / 10)) = (3 - 1)%Z /\
  finished (update_n 3 Fixtures.jump_started (1 / 10)) = true /\
  is_playing (update_n 3 Fixtures.jump_started (1 / 10)) = false.
Proof.
  apply (C2_full_pass Fixtures.jump_started "jump" [0; 1; 2]%Z 10 false
           Fixtures.jump_clip); reflexivity.
Defined.

(** The looping clip [[4,5,6,7]]: indices 1, 2, 3 and back to 0. *)
Example full_pass_looping :
  map (fun k => current_frame_index (update_n k Fixtures.walk_started (1 / 8)))
      [1; 2; 3; 4]%nat = [1; 2; 3; 0]%Z.
Proof. vm_compute. reflexivity. Qed.

(** *** The finished flag *)

Lemma finished_inv_step m o : finished_inv m -> finished_inv (step m o).
Proof.
  unfold finished_inv. intros IH.
  destruct o as [a|now n restart| | | |dt|n|]; simpl.
  - exact IH.
  - unfold play_animation. destruct (animations m !! n); [|exact IH].
    destruct (bool_decide _ && _ && _ && _); [exact IH|]. simpl. discriminate.
  - discriminate.
  - unfold pause. destruct (is_playing m); exact IH.
  - unfold resume. destruct (is_playing m && is_paused m); exact IH.
  - unfold update.
    destruct (negb (is_playing m) || is_paused m); [exact IH|].
    destruct (current_animation m) as [a|] eqn:Hc; [|rewrite Hc; exact IH].
    destruct (finished m && negb (loop a)) eqn:Hfl; [rewrite Hc; exact IH|].
    assert (Hnf : finished m = false).
    { destruct (finished m) eqn:Hf; [|reflexivity].
      destruct IH as (a' & Ha' & Hl' & _); [reflexivity|].
      assert (a' = a) by congruence. subst a'.
      rewrite Hl' in Hfl. discriminate. }
    destruct (Qle_bool _ _); [|simpl; congruence].
    destruct (len (frames a) <=? current_frame_index m + 1)%Z;
      [destruct (loop a) eqn:Hl|]; simpl; try congruence.
    intros _. exists a. auto.
  - unfold remove_animation. destruct (animations m !! n); [|exact IH].
    destruct (bool_decide _); simpl; [discriminate|exact IH].
  - discriminate.
Qed.

(** C6.  In every state that a fresh manager reaches through
    [add_animation], [play_animation], [stop], [pause], [resume],
    [update], [remove_animation] and [clear_animations], a set [finished]
    flag implies that the active clip does not loop and that the frame
    index is [len(frames) - 1] of that clip. *)
Theorem C6_finished_invariant (m : AnimationManager) :
  reachable m ->
  finished m = true ->
  exists a, current_animation m = Some a /\ loop a = false /\
            current_frame_index m = (len (frames a) - 1)%Z.
Proof.
  intros Hr. change (finished_inv m).
  induction Hr as [|m o _ IH]; [discriminate|].
  apply finished_inv_step. exact IH.
Qed.

Lemma reachable_run ops : forall m, reachable m -> reachable (run ops m).
Proof.
  induction ops as [|o ops IH]; intros m Hm; [exact Hm|].
  simpl. apply IH. constructor. exact Hm.
Qed.

Lemma C6_finished_invariant_witness :
  exists a,
    current_animation (run Fixtures.jump_to_end init) = Some a /\
    loop a = false /\
    current_frame_index (run Fixtures.jump_to_end init) = (len (frames a) - 1)%Z.
Proof.
  apply (C6_finished_invariant (run Fixtures.jump_to_end init)).
  - apply reachable_run. constructor.
  - vm_compute. reflexivity.
Defined.

(** *** Playing a clip that is already playing *)

Lemma play_same m now n :
  is_Some (animations m !! n) ->
  current_animation_name m = Some n ->
  is_playing m = true -> finished m = false ->
  play_animation m now n false = (true, m).
Proof.
  intros [a Ha] Hn Hp Hf. unfold play_animation.
  rewrite Ha, Hp, Hf. rewrite bool_decide_eq_true_2 by exact Hn. reflexivity.
Qed.

Lemma playing_registered_step m o :
  playing_registered m -> playing_registered (step m o).
Proof.
  unfold playing_registered. intros IH.
  destruct o as [a|now n restart| | | |dt|n|]; simpl.
  - intros Hp. destruct (IH Hp) as (n & Hn & Hs). exists n. split; [exact Hn|].
    rewrite lookup_insert. case_decide; [eauto|exact Hs].
  - unfold play_animation. destruct (animations m !! n) eqn:Hl; [|exact IH].
    destruct (bool_decide _ && _ && _ && _); [exact IH|]. simpl.
    intros _. exists n. rewrite Hl. eauto.
  - discriminate.
  - unfold pause. destruct (is_playing m) eqn:Hp; [|congruence].
    simpl. intros _. apply IH. reflexivity.
  - unfold resume. destruct (is_playing m && is_paused m); exact IH.
  - unfold update.
    destruct (negb (is_playing m) || is_paused m); [exact IH|].
    destruct (current_animation m) as [a|]; [|exact IH].
    destruct (finished m && negb (loop a)); [exact IH|].
    destruct (Qle_bool _ _); [|simpl; exact IH].
    destruct (len (frames a) <=? current_frame_index m + 1)%Z;
      [destruct (loop a)|]; simpl; try exact IH. discriminate.
  - unfold remove_animation. destruct (animations m !! n) eqn:Hl; [|exact IH].
    destruct (bool_decide (current_animation_name m = Some n)) eqn:Hd;
      simpl; [discriminate|].
    intros Hp. destruct (IH Hp) as (n' & Hn' & Hs). exists n'.
    split; [exact Hn'|]. rewrite lookup_delete_ne; [exact Hs|].
    apply bool_decide_eq_false_1 in Hd. congruence.
  - discriminate.
Qed.

Lemma reachable_playing_registered m : reachable m -> playing_registered m.
Proof.
  induction 1 as [|m o _ IH]; [discriminate|].
  apply playing_registered_step. exact IH.
Qed.

(** C7.  In a reachable state whose active clip is named [n], is playing
    and is not finished (paused or not), [play_animation(n)] without
    [restart] returns [True] and changes nothing: frame index, timer and
    all flags stay as they were. *)
Theorem C7_play_again_is_noop (m : AnimationManager) (now : Q) (n : string) :
  reachable m ->
  current_animation_name m = Some n ->
  is_playing m = true -> finished m = false ->
  play_animation m now n false = (true, m).
Proof.
  intros Hr Hn Hp Hf. apply play_same; try assumption.
  destruct (reachable_playing_registered m Hr Hp) as (n' & Hn' & Hs).
  congruence.
Qed.

Lemma C7_play_again_is_noop_witness :
  play_animation (run Fixtures.walk_one_frame init) 5 "walk" false
  = (true, run Fixtures.walk_one_frame init).
Proof.
  apply (C7_play_again_is_noop (run Fixtures.walk_one_frame init) 5 "walk").
  - apply reachable_run. constructor.
  - reflexivity.
  - reflexivity.
  - reflexivity.
Defined.

(** *** Playing an unknown name *)

Lemma play_unknown (m : AnimationManager) (now : Q) (n : string)
    (restart : bool) :
  animations m !! n = None ->
  play_animation m now n restart = (false, m).
Proof.
  intros Hn. unfold play_animation. rewrite Hn. reflexivity.
Qed.

(** C8.  For a name that is not registered, [play_animation] returns
    [False] and the manager is unchanged, whatever [restart] is. *)
Theorem C8_play_unknown (m : AnimationManager) (now : Q) (n : string)
    (restart : bool) :
  animations m !! n = None ->
  play_animation m now n restart = (false, m).
Proof. apply play_unknown. Qed.

Lemma C8_play_unknown_witness :
  play_animation Fixtures.walk_started 7 "fly" true
  = (false, Fixtures.walk_started).
Proof.
  apply (C8_play_unknown Fixtures.walk_started 7 "fly" true).
  vm_compute. reflexivity.
Defined.

End AnimProofs.


(** * Properties of the sprite geometry *)

Module SpriteProofs.

Import Sprite.
Open Scope R_scope.

(** ** Numbers *)

Lemma float_eq_true x y : float_eq x y = true <-> x = y.
Proof. unfold float_eq. destruct (Req_dec_T x y); split; congruence. Qed.

Lemma float_eq_false x y : float_eq x y = false <-> x <> y.
Proof. unfold float_eq. destruct (Req_dec_T x y); split; congruence. Qed.

Lemma float_lt_true x y : float_lt x y = true <-> x < y.
Proof. unfold float_lt. destruct (Rlt_dec x y); split; congruence. Qed.

Lemma float_lt_false x y : float_lt x y = false <-> y <= x.
Proof.
  unfold float_lt. destruct (Rlt_dec x y); split; try congruence; lra.
Qed.

Lemma float_le_true x y : float_le x y = true <-> x <= y.
Proof. unfold float_le. destruct (Rle_dec x y); split; congruence. Qed.

Lemma float_le_false x y : float_le x y = false <-> y < x.
Proof.
  unfold float_le. destruct (Rle_dec x y); split; try congruence; lra.
Qed.

Lemma math_sqrt_ok x : 0 <= x -> math_sqrt x = Ok (sqrt x).
Proof.
  intros H. unfold math_sqrt.
  rewrite (proj2 (float_lt_false x 0) H). reflexivity.
Qed.

Lemma float_div_ok x y : y <> 0 -> float_div x y = Ok (x / y).
Proof.
  intros H. unfold float_div.
  rewrite (proj2 (float_eq_false y 0) H). reflexivity.
Qed.

Lemma Int_part_IZR z : Int_part (IZR z) = z.
Proof. symmetry. apply Int_part_spec. lra. Qed.

(** [int()] leaves an integer-valued float as it is. *)
Lemma py_int_IZR z : py_int (IZR z) = z.
Proof.
  unfold py_int. destruct (Rle_dec 0 (IZR z)).
  - apply Int_part_IZR.
  - rewrite <- opp_IZR, Int_part_IZR. lia.
Qed.

(** On non-negative floats [int()] is the floor. *)
Lemma py_int_floor x : 0 <= x -> py_int x = Int_part x.
Proof. intros H. unfold py_int. destruct (Rle_dec 0 x); [reflexivity|lra]. Qed.




(** ** Playing an unknown name on a sprite *)

(** C10.  For a name that is not registered and a mirror argument [b],
    the sprite's [play_animation] returns [False], still sets the
    mirrored flag to [b], and leaves the animation manager (and every
    other attribute) as it was. *)
Theorem C10_mirror_before_lookup (s : AnimatedSprite) (now : Q) (n : string)
    (restart b : bool) :
  Anim.animations (animation_manager s) !! n = None ->
  let r := play_animation s now n restart (Some b) in
  fst r = false /\
  _mirrored (snd r) = b /\
  animation_manager (snd r) = animation_manager s /\
  snd r = mirror s b.
Proof.
  intros Hn. unfold play_animation. simpl.
  rewrite (AnimProofs.play_unknown _ now n restart Hn). simpl.
  repeat split.
Qed.

Lemma C10_mirror_before_lookup_witness :
  fst (play_animation Fixtures.hero 3 "fly" false (Some true)) = false /\
  _mirrored (snd (play_animation Fixtures.hero 3 "fly" false (Some true))) = true /\
  animation_manager (snd (play_animation Fixtures.hero 3 "fly" false (Some true)))
    = animation_manager Fixtures.hero /\
  snd (play_animation Fixtures.hero 3 "fly" false (Some true))
    = mirror Fixtures.hero true.
Proof.
  apply (C10_mirror_before_lookup Fixtures.hero 3 "fly" false true).
  vm_compute. reflexivity.
Defined.

(** ** Hitbox corners *)

Lemma radians_zero : math_radians (- 0) = 0.
Proof. unfold math_radians. lra. Qed.

(** The code's corners are the corners of the specification with [int()]
    as the conversion of the centre: skipping the rotation at angle 0 is
    the same as rotating by 0. *)
Lemma get_corners_spec s : _get_corners s = spec_corners py_int s.
Proof.
  unfold _get_corners, spec_corners, hitbox_size, hitbox_center.
  destruct (float_eq (rotation s) 0) eqn:E.
  - apply float_eq_true in E. rewrite E, radians_zero, cos_0, sin_0.
    destruct (custom_hitbox_size s) as [[w h]|]; simpl;
      unfold to_world; simpl; repeat (f_equal; try lra).
  - destruct (custom_hitbox_size s) as [[w h]|]; simpl; reflexivity.
Qed.


(** Where the centre coordinates are not negative, [int()] is the floor,
    so there the corners are also the floor-based ones. *)
Lemma get_corners_floor_nonneg s :
  0 <= fst (_position s) -> 0 <= snd (_position s) ->
  _get_corners s = spec_corners Int_part s.
Proof.
  intros Hx Hy. rewrite get_corners_spec. unfold spec_corners.
  rewrite (py_int_floor _ Hx), (py_int_floor _ Hy). reflexivity.
Qed.




(** ** The separating axis test *)

Lemma sum_squares_nonneg x y : 0 <= x ^ 2 + y ^ 2.
Proof. nra. Qed.

Lemma sum_products_nonneg x y : 0 <= x * x + y * y.
Proof. nra. Qed.

Lemma index_in_range {A : Type} (l : list A) i :
  (i < length l)%nat -> exists a, index l i = Ok a.
Proof.
  intros H. unfold index. destruct (nth_error l i) eqn:E; [eauto|].
  apply nth_error_None in E. lia.
Qed.

Lemma index_next_in_range {A : Type} (l : list A) i :
  (i < length l)%nat -> exists a, index l ((i + 1) mod length l)%nat = Ok a.
Proof.
  intros H. apply index_in_range. apply Nat.mod_upper_bound. lia.
Qed.

Lemma seq_in_range n : Forall (fun i => (i < n)%nat) (seq 0 n).
Proof. apply Forall_forall. intros i Hi. apply elem_of_seq in Hi. lia. Qed.

Lemma project_nonempty n corners : corners <> [] -> project n corners <> [].
Proof. destruct corners; [congruence|discriminate]. Qed.

Lemma py_min_nonempty l : l <> [] -> exists v, py_min l = Ok v.
Proof. destruct l; [congruence|simpl; eauto]. Qed.

Lemma py_max_nonempty l : l <> [] -> exists v, py_max l = Ok v.
Proof. destruct l; [congruence|simpl; eauto]. Qed.

(** The shape of [sat_edge] once the guarded operations are known to
    succeed: the edge is skipped when its normal has length zero, and
    otherwise the two projection ranges are compared. *)
Lemma sat_edge_unfold p1 p2 ca cb min_a max_a min_b max_b :
  let nx := - (snd p2 - snd p1) in
  let ny := fst p2 - fst p1 in
  let length := sqrt (nx ^ 2 + ny ^ 2) in
  let normal := (nx / length, ny / length) in
  (length <> 0 ->
   py_min (project normal ca) = Ok min_a /\
   py_max (project normal ca) = Ok max_a /\
   py_min (project normal cb) = Ok min_b /\
   py_max (project normal cb) = Ok max_b) ->
  sat_edge p1 p2 ca cb =
    if float_eq length 0 then Ok None
    else if float_lt max_a min_b || float_lt max_b min_a then Ok (Some false)
         else Ok None.
Proof.
  intros nx ny length normal H. unfold sat_edge. cbn [fst snd].
  fold nx ny. rewrite (math_sqrt_ok _ (sum_squares_nonneg nx ny)).
  cbn [bind]. fold length. destruct (float_eq length 0) eqn:E; [reflexivity|].
  apply float_eq_false in E. rewrite !(float_div_ok _ _ E). cbn [bind].
  fold normal. destruct (H E) as (-> & -> & -> & ->). reflexivity.
Qed.

Lemma sat_edge_cases p1 p2 ca cb :
  ca <> [] -> cb <> [] ->
  sat_edge p1 p2 ca cb = Ok None \/ sat_edge p1 p2 ca cb = Ok (Some false).
Proof.
  intros Ha Hb.
  set (nx := - (snd p2 - snd p1)). set (ny := fst p2 - fst p1).
  set (n := (nx / sqrt (nx ^ 2 + ny ^ 2), ny / sqrt (nx ^ 2 + ny ^ 2))).
  destruct (py_min_nonempty _ (project_nonempty n ca Ha)) as [min_a Hmin_a].
  destruct (py_max_nonempty _ (project_nonempty n ca Ha)) as [max_a Hmax_a].
  destruct (py_min_nonempty _ (project_nonempty n cb Hb)) as [min_b Hmin_b].
  destruct (py_max_nonempty _ (project_nonempty n cb Hb)) as [max_b Hmax_b].
  rewrite (sat_edge_unfold p1 p2 ca cb min_a max_a min_b max_b) by auto.
  destruct (float_eq _ 0); [auto|].
  destruct (float_lt max_a min_b || float_lt max_b min_a); auto.
Qed.

(** Exchanging the two polygons does not change what one edge decides. *)
Lemma sat_edge_sym p1 p2 ca cb :
  ca <> [] -> cb <> [] -> sat_edge p1 p2 ca cb = sat_edge p1 p2 cb ca.
Proof.
  intros Ha Hb.
  set (nx := - (snd p2 - snd p1)). set (ny := fst p2 - fst p1).
  set (n := (nx / sqrt (nx ^ 2 + ny ^ 2), ny / sqrt (nx ^ 2 + ny ^ 2))).
  destruct (py_min_nonempty _ (project_nonempty n ca Ha)) as [min_a Hmin_a].
  destruct (py_max_nonempty _ (project_nonempty n ca Ha)) as [max_a Hmax_a].
  destruct (py_min_nonempty _ (project_nonempty n cb Hb)) as [min_b Hmin_b].
  destruct (py_max_nonempty _ (project_nonempty n cb Hb)) as [max_b Hmax_b].
  rewrite (sat_edge_unfold p1 p2 ca cb min_a max_a min_b max_b) by auto.
  rewrite (sat_edge_unfold p1 p2 cb ca min_b max_b min_a max_a) by auto.
  rewrite (orb_comm (float_lt max_a min_b)). reflexivity.
Qed.

Lemma sat_edges_cases idx corners ca cb :
  Forall (fun i => (i < length corners)%nat) idx ->
  ca <> [] -> cb <> [] ->
  sat_edges idx corners ca cb = Ok None \/
  sat_edges idx corners ca cb = Ok (Some false).
Proof.
  intros Hidx Ha Hb. induction Hidx as [|i idx Hi _ IH]; simpl; [auto|].
  destruct (index_in_range corners i Hi) as [p1 ->].
  destruct (index_next_in_range corners i Hi) as [p2 ->]. simpl.
  destruct (sat_edge_cases p1 p2 ca cb Ha Hb) as [-> | ->]; simpl; auto.
Qed.

Lemma sat_edges_sym idx corners ca cb :
  Forall (fun i => (i < length corners)%nat) idx ->
  ca <> [] -> cb <> [] ->
  sat_edges idx corners ca cb = sat_edges idx corners cb ca.
Proof.
  intros Hidx Ha Hb. induction Hidx as [|i idx Hi _ IH]; simpl; [auto|].
  destruct (index_in_range corners i Hi) as [p1 ->].
  destruct (index_next_in_range corners i Hi) as [p2 ->]. simpl.
  rewrite (sat_edge_sym p1 p2 ca cb Ha Hb).
  destruct (sat_edge p1 p2 cb ca) as [[b|]|e]; simpl; auto.
Qed.

(** With exact squares the test returns for any two non-empty
    polygons. *)
Lemma sat_returns ca cb :
  ca <> [] -> cb <> [] -> returns (_separating_axis_test ca cb).
Proof.
  intros Ha Hb. unfold _separating_axis_test, returns. simpl.
  destruct (sat_edges_cases _ ca ca cb (seq_in_range _) Ha Hb) as [-> | ->];
    simpl; [|eauto].
  destruct (sat_edges_cases _ cb ca cb (seq_in_range _) Ha Hb) as [-> | ->];
    simpl; eauto.
Qed.

(** The test does not depend on the order of its two polygons. *)
Lemma sat_sym ca cb :
  ca <> [] -> cb <> [] ->
  _separating_axis_test ca cb = _separating_axis_test cb ca.
Proof.
  intros Ha Hb. unfold _separating_axis_test. simpl.
  rewrite (sat_edges_sym _ cb cb ca (seq_in_range _) Hb Ha).
  rewrite (sat_edges_sym _ ca cb ca (seq_in_range _) Hb Ha).
  destruct (sat_edges_cases _ ca ca cb (seq_in_range _) Ha Hb) as [-> | ->];
  destruct (sat_edges_cases _ cb ca cb (seq_in_range _) Ha Hb) as [-> | ->];
    reflexivity.
Qed.

(** ** Circle tests *)

Lemma get_corners_four s :
  exists c0 c1 c2 c3, _get_corners s = [c0; c1; c2; c3].
Proof. rewrite get_corners_spec. unfold spec_corners. eauto 6. Qed.

Lemma get_corners_nonempty s : _get_corners s <> [].
Proof.
  destruct (get_corners_four s) as (c0 & c1 & c2 & c3 & ->). discriminate.
Qed.

(** The distance to a segment is defined for every point and segment. *)
Lemma point_to_line_distance_returns pt p1 p2 :
  returns (_point_to_line_distance pt p1 p2).
Proof.
  destruct pt as [px py], p1 as [x1 y1], p2 as [x2 y2].
  unfold _point_to_line_distance, returns. cbn [fst snd].
  destruct (float_eq _ 0) eqn:E.
  - rewrite math_sqrt_ok by apply sum_products_nonneg. eauto.
  - apply float_eq_false in E. rewrite (float_div_ok _ _ E). cbn [bind].
    rewrite math_sqrt_ok by apply sum_products_nonneg. eauto.
Qed.

(** For a segment of length zero it is the distance to its end point. *)
Lemma point_to_line_distance_degenerate px py x1 y1 :
  _point_to_line_distance (px, py) (x1, y1) (x1, y1)
  = Ok (sqrt ((px - x1) * (px - x1) + (py - y1) * (py - y1))).
Proof.
  unfold _point_to_line_distance. cbn [fst snd].
  rewrite (proj2 (float_eq_true _ 0)) by lra.
  apply math_sqrt_ok, sum_products_nonneg.
Qed.

(** One step of the ray casting loop always succeeds: inside the three
    nested conditions the two heights differ, so the division is defined
    and [xinters] has just been assigned. *)
Lemma pip_step_returns x y p2 st : returns (pip_step x y p2 st).
Proof.
  unfold pip_step, returns. destruct (pip_p1 st) as [p1x p1y].
  destruct p2 as [p2x p2y].
  destruct (float_lt (Rmin p1y p2y) y && float_le y (Rmax p1y p2y)
            && float_le x (Rmax p1x p2x)) eqn:E; [|eauto].
  apply andb_prop in E. destruct E as [E _].
  apply andb_prop in E. destruct E as [E1 E2].
  apply float_lt_true in E1. apply float_le_true in E2.
  destruct (float_eq p1y p2y) eqn:Ey.
  { apply float_eq_true in Ey. subst p2y. exfalso.
    revert E1 E2. unfold Rmin, Rmax. destruct (Rle_dec p1y p1y); lra. }
  apply float_eq_false in Ey.
  rewrite float_div_ok by lra. cbn [bind].
  destruct (float_eq p1x p2x); cbn [bind]; eauto.
Qed.

Lemma pip_loop_returns x y polygon idx : forall st,
  polygon <> [] -> returns (pip_loop x y polygon idx st).
Proof.
  induction idx as [|i idx IH]; intros st Hp; simpl; [eexists; eauto|].
  destruct (index_in_range polygon (i mod length polygon)) as [p2 ->].
  { apply Nat.mod_upper_bound. destruct polygon; [congruence|simpl; lia]. }
  cbn [bind]. destruct (pip_step_returns x y p2 st) as [st1 ->]. cbn [bind].
  apply IH. exact Hp.
Qed.

Lemma point_in_polygon_returns pt polygon :
  polygon <> [] -> returns (_point_in_polygon pt polygon).
Proof.
  intros Hp. unfold _point_in_polygon. destruct pt as [x y].
  destruct polygon as [|p0 rest]; [congruence|]. cbn [index nth_error bind].
  destruct (pip_loop_returns x y (p0 :: rest) (seq 1 (length (p0 :: rest)))
              (mkPip false p0 None) Hp) as [st ->].
  cbn [bind]. eexists; eauto.
Qed.

Lemma circle_edges_returns idx centre c polygon :
  Forall (fun i => (i < length polygon)%nat) idx ->
  is_Some (hitbox_radius c) ->
  returns (circle_edges idx centre c polygon).
Proof.
  intros Hidx [r Hr]. induction Hidx as [|i idx Hi _ IH]; simpl;
    [eexists; eauto|].
  destruct (index_in_range polygon i Hi) as [p1 ->].
  destruct (index_next_in_range polygon i Hi) as [p2 ->]. cbn [bind].
  destruct (point_to_line_distance_returns centre p1 p2) as [d ->].
  cbn [bind]. unfold radius_of. rewrite Hr. cbn [bind].
  destruct (float_le d r); [eexists; eauto|exact IH].
Qed.

Lemma polygon_circle_test_returns centre c polygon :
  polygon <> [] -> is_Some (hitbox_radius c) ->
  returns (polygon_circle_test centre c polygon).
Proof.
  intros Hp Hr. unfold polygon_circle_test.
  destruct (point_in_polygon_returns centre polygon Hp) as [inside ->].
  cbn [bind]. destruct inside; [eexists; eauto|].
  apply circle_edges_returns; [apply seq_in_range|exact Hr].
Qed.

(** Whichever of the two sprites receives the call, the circle and the
    rectangle are told apart in the same way. *)
Lemma circle_rect_sym c r :
  hitbox_shape c = Circle -> hitbox_shape r = Rect ->
  _check_circle_rect_collision c r = _check_circle_rect_collision r c.
Proof.
  intros Hc Hr. unfold _check_circle_rect_collision. rewrite Hc, Hr.
  reflexivity.
Qed.

Lemma circle_rect_returns c r :
  hitbox_shape c = Circle -> is_Some (hitbox_radius c) ->
  returns (_check_circle_rect_collision c r).
Proof.
  intros Hc Hrad. unfold _check_circle_rect_collision. rewrite Hc.
  cbn [is_circle].
  destruct (negb (float_eq (rotation r) 0) || is_set (custom_hitbox_size r)).
  - apply polygon_circle_test_returns;
      [apply get_corners_nonempty|exact Hrad].
  - destruct (rect_bounds r) as [[[rl rr] rt] rb].
    rewrite math_sqrt_ok by apply sum_products_nonneg. cbn [bind].
    destruct Hrad as [rad Hrad]. unfold radius_of. rewrite Hrad.
    eexists; reflexivity.
Qed.

Lemma circle_circle_sym a b :
  _check_circle_collision a b = _check_circle_collision b a.
Proof.
  unfold _check_circle_collision.
  set (ca := hitbox_center a). set (cb := hitbox_center b).
  replace ((fst ca - fst cb) * (fst ca - fst cb)
           + (snd ca - snd cb) * (snd ca - snd cb))%Z
    with ((fst cb - fst ca) * (fst cb - fst ca)
          + (snd cb - snd ca) * (snd cb - snd ca))%Z by ring.
  destruct (math_sqrt _) as [d|e]; [|reflexivity]. cbn [bind].
  unfold radius_of.
  destruct (hitbox_radius a) as [ra|], (hitbox_radius b) as [rb|];
    cbn [bind]; try reflexivity.
  rewrite (Rplus_comm ra rb). reflexivity.
Qed.

Lemma circle_circle_returns a b :
  is_Some (hitbox_radius a) -> is_Some (hitbox_radius b) ->
  returns (_check_circle_collision a b).
Proof.
  intros [ra Ha] [rb Hb]. unfold _check_circle_collision, radius_of.
  rewrite Ha, Hb. rewrite math_sqrt_ok.
  - eexists; reflexivity.
  - apply IZR_le.
    generalize (fst (hitbox_center b) - fst (hitbox_center a))%Z.
    generalize (snd (hitbox_center b) - snd (hitbox_center a))%Z.
    intros y x. nia.
Qed.

Lemma shape_cases s : hitbox_shape s = Circle \/ hitbox_shape s = Rect.
Proof. destruct (hitbox_shape s); auto. Qed.

(** With exact squares and roots [collides_with] returns for
    well-formed sprites. *)
Lemma collides_with_returns a b :
  well_formed a -> well_formed b -> returns (collides_with a b).
Proof.
  intros Wa Wb. unfold collides_with.
  destruct (shape_cases a) as [Ha|Ha], (shape_cases b) as [Hb|Hb];
    rewrite Ha, Hb; cbn [is_circle andb orb].
  - apply circle_circle_returns; auto.
  - apply circle_rect_returns; auto.
  - rewrite <- (circle_rect_sym b a Hb Ha).
    apply circle_rect_returns; auto.
  - apply sat_returns; apply get_corners_nonempty.
Qed.

(** [collides_with] gives the same result in both directions. *)
Lemma collides_with_sym a b : collides_with a b = collides_with b a.
Proof.
  unfold collides_with.
  destruct (shape_cases a) as [Ha|Ha], (shape_cases b) as [Hb|Hb];
    rewrite Ha, Hb; cbn [is_circle andb orb].
  - apply circle_circle_sym.
  - apply circle_rect_sym; assumption.
  - symmetry. apply circle_rect_sym; assumption.
  - apply sat_sym; apply get_corners_nonempty.
Qed.

(** Two circles of radius 10: 25 pixels apart they do not collide, 15
    pixels apart they do. *)
Example circles_apart :
  collides_with (Fixtures.disc 0) (Fixtures.disc 25) = Ok false.
Proof.
  unfold collides_with, _check_circle_collision, hitbox_center. cbn.
  rewrite !py_int_IZR.
  match goal with
  | |- context [math_sqrt (IZR ?z)] =>
      let v := eval vm_compute in z in change z with v
  end.
  rewrite math_sqrt_ok by lra. cbn [bind].
  replace 625 with (25 * 25) by lra. rewrite sqrt_square by lra.
  unfold float_le. destruct (Rle_dec 25 (10 + 10)); [lra|reflexivity].
Qed.

Example circles_touching :
  collides_with (Fixtures.disc 0) (Fixtures.disc 15) = Ok true.
Proof.
  unfold collides_with, _check_circle_collision, hitbox_center. cbn.
  rewrite !py_int_IZR.
  match goal with
  | |- context [math_sqrt (IZR ?z)] =>
      let v := eval vm_compute in z in change z with v
  end.
  rewrite math_sqrt_ok by lra. cbn [bind].
  replace 225 with (15 * 15) by lra. rewrite sqrt_square by lra.
  unfold float_le. destruct (Rle_dec 15 (10 + 10)); [reflexivity|lra].
Qed.

(** A zero-length edge yields no axis: its normal has length zero and the
    loop moves on before any division. *)
Lemma sat_edge_degenerate p ca cb : sat_edge p p ca cb = Ok None.
Proof.
  unfold sat_edge. cbn [fst snd].
  replace (- (snd p - snd p)) with 0 by lra.
  replace (fst p - fst p) with 0 by lra.
  replace (0 ^ 2 + 0 ^ 2) with 0 by lra.
  rewrite math_sqrt_ok by lra. cbn [bind]. rewrite sqrt_0.
  rewrite (proj2 (float_eq_true 0 0) eq_refl). reflexivity.
Qed.

(** ** Axis-aligned rectangles *)

Section Ranges.

(** A map that commutes with the folded operation commutes with the
    fold. *)
Lemma fold_left_morph (f : R -> R) (g h : R -> R -> R) :
  (forall u v, g (f u) (f v) = f (h u v)) ->
  forall l x, fold_left g (map f l) (f x) = f (fold_left h l x).
Proof.
  intros Hm l. induction l as [|y l IH]; intros x; simpl; [reflexivity|].
  rewrite Hm. apply IH.
Qed.

Variable k : R.

Lemma Rmin_scale_pos u v : 0 < k -> Rmin (u * k) (v * k) = Rmin u v * k.
Proof.
  intros Hk. unfold Rmin.
  destruct (Rle_dec (u * k) (v * k)), (Rle_dec u v); try reflexivity; nra.
Qed.

Lemma Rmax_scale_pos u v : 0 < k -> Rmax (u * k) (v * k) = Rmax u v * k.
Proof.
  intros Hk. unfold Rmax.
  destruct (Rle_dec (u * k) (v * k)), (Rle_dec u v); try reflexivity; nra.
Qed.

Lemma Rmin_scale_neg u v : k < 0 -> Rmin (u * k) (v * k) = Rmax u v * k.
Proof.
  intros Hk. unfold Rmin, Rmax.
  destruct (Rle_dec (u * k) (v * k)), (Rle_dec u v); try reflexivity; nra.
Qed.

Lemma Rmax_scale_neg u v : k < 0 -> Rmax (u * k) (v * k) = Rmin u v * k.
Proof.
  intros Hk. unfold Rmin, Rmax.
  destruct (Rle_dec (u * k) (v * k)), (Rle_dec u v); try reflexivity; nra.
Qed.

(** Scaling two disjoint ranges by a non-zero factor keeps them
    disjoint, in the form the separation check reads them. *)
Lemma scaled_ranges_separated la lb :
  k <> 0 -> ranges_disjoint la lb ->
  exists min_a max_a min_b max_b,
    py_min (scaled k la) = Ok min_a /\ py_max (scaled k la) = Ok max_a /\
    py_min (scaled k lb) = Ok min_b /\ py_max (scaled k lb) = Ok max_b /\
    float_lt max_a min_b || float_lt max_b min_a = true.
Proof.
  intros Hk (min_a & max_a & min_b & max_b & Ha1 & Ha2 & Hb1 & Hb2 & Hd).
  destruct la as [|a la]; [discriminate|].
  destruct lb as [|b lb]; [discriminate|].
  simpl in Ha1, Ha2, Hb1, Hb2.
  injection Ha1 as <-. injection Ha2 as <-.
  injection Hb1 as <-. injection Hb2 as <-.
  unfold scaled. simpl.
  destruct (Rlt_dec 0 k) as [Hpos|Hnpos].
  - rewrite !(fold_left_morph (fun v => v * k) Rmin Rmin)
      by (intros; apply Rmin_scale_pos; exact Hpos).
    rewrite !(fold_left_morph (fun v => v * k) Rmax Rmax)
      by (intros; apply Rmax_scale_pos; exact Hpos).
    do 4 eexists. repeat (split; [reflexivity|]).
    apply orb_true_iff. rewrite !float_lt_true.
    destruct Hd; [left|right]; nra.
  - assert (Hneg : k < 0) by lra.
    rewrite !(fold_left_morph (fun v => v * k) Rmin Rmax)
      by (intros; apply Rmin_scale_neg; exact Hneg).
    rewrite !(fold_left_morph (fun v => v * k) Rmax Rmin)
      by (intros; apply Rmax_scale_neg; exact Hneg).
    do 4 eexists. repeat (split; [reflexivity|]).
    apply orb_true_iff. rewrite !float_lt_true.
    destruct Hd; [right|left]; nra.
Qed.

End Ranges.

Lemma project_on_x k n1 corners :
  n1 = 0 -> project (k, n1) corners = scaled k (xs corners).
Proof.
  intros ->. unfold project, scaled, xs. rewrite map_map.
  apply map_ext. intros c. cbn [fst snd]. lra.
Qed.

Lemma project_on_y k n0 corners :
  n0 = 0 -> project (n0, k) corners = scaled k (ys corners).
Proof.
  intros ->. unfold project, scaled, ys. rewrite map_map.
  apply map_ext. intros c. cbn [fst snd]. lra.
Qed.

(** A vertical edge of non-zero length tests the x axis. *)
Lemma sat_edge_vertical x y1 y2 ca cb :
  y1 <> y2 -> ranges_disjoint (xs ca) (xs cb) ->
  sat_edge (x, y1) (x, y2) ca cb = Ok (Some false).
Proof.
  intros Hy Hd.
  set (nx := - (y2 - y1)). set (ny := x - x).
  set (len := sqrt (nx ^ 2 + ny ^ 2)).
  assert (Hlen : 0 < len).
  { apply sqrt_lt_R0. unfold nx, ny. nra. }
  assert (Hk : nx / len <> 0).
  { unfold Rdiv. apply Rmult_integral_contrapositive. split.
    - unfold nx. lra.
    - apply Rinv_neq_0_compat. lra. }
  assert (Hn1 : ny / len = 0) by (unfold ny, Rdiv; ring).
  destruct (scaled_ranges_separated _ _ _ Hk Hd)
    as (min_a & max_a & min_b & max_b & H1 & H2 & H3 & H4 & Hsep).
  rewrite (sat_edge_unfold (x, y1) (x, y2) ca cb min_a max_a min_b max_b).
  - cbn [fst snd]. fold nx ny len.
    rewrite (proj2 (float_eq_false len 0)) by lra. rewrite Hsep. reflexivity.
  - cbn [fst snd]. fold nx ny len. intros _.
    rewrite !(project_on_x _ _ _ Hn1). auto.
Qed.

(** A horizontal edge of non-zero length tests the y axis. *)
Lemma sat_edge_horizontal x1 x2 y ca cb :
  x1 <> x2 -> ranges_disjoint (ys ca) (ys cb) ->
  sat_edge (x1, y) (x2, y) ca cb = Ok (Some false).
Proof.
  intros Hx Hd.
  set (nx := - (y - y)). set (ny := x2 - x1).
  set (len := sqrt (nx ^ 2 + ny ^ 2)).
  assert (Hlen : 0 < len).
  { apply sqrt_lt_R0. unfold nx, ny. nra. }
  assert (Hk : ny / len <> 0).
  { unfold Rdiv. apply Rmult_integral_contrapositive. split.
    - unfold ny. lra.
    - apply Rinv_neq_0_compat. lra. }
  assert (Hn0 : nx / len = 0) by (unfold nx, Rdiv; ring).
  destruct (scaled_ranges_separated _ _ _ Hk Hd)
    as (min_a & max_a & min_b & max_b & H1 & H2 & H3 & H4 & Hsep).
  rewrite (sat_edge_unfold (x1, y) (x2, y) ca cb min_a max_a min_b max_b).
  - cbn [fst snd]. fold nx ny len.
    rewrite (proj2 (float_eq_false len 0)) by lra. rewrite Hsep. reflexivity.
  - cbn [fst snd]. fold nx ny len. intros _.
    rewrite !(project_on_y _ _ _ Hn0). auto.
Qed.

(** An edge that separates decides the inner loop, wherever it stands. *)
Lemma sat_edges_found idx corners ca cb i p1 p2 :
  Forall (fun j => (j < length corners)%nat) idx ->
  ca <> [] -> cb <> [] ->
  In i idx ->
  index corners i = Ok p1 ->
  index corners ((i + 1) mod length corners)%nat = Ok p2 ->
  sat_edge p1 p2 ca cb = Ok (Some false) ->
  sat_edges idx corners ca cb = Ok (Some false).
Proof.
  intros Hidx Ha Hb Hin H1 H2 Hsep.
  induction Hidx as [|j idx Hj _ IH]; [destruct Hin|].
  simpl. destruct Hin as [-> | Hin].
  - rewrite H1, H2. cbn [bind]. rewrite Hsep. reflexivity.
  - destruct (index_in_range corners j Hj) as [q1 ->].
    destruct (index_next_in_range corners j Hj) as [q2 ->]. cbn [bind].
    destruct (sat_edge_cases q1 q2 ca cb Ha Hb) as [-> | ->]; cbn [bind];
      [apply IH; exact Hin|reflexivity].
Qed.

Lemma sat_false_left ca cb :
  sat_edges (seq 0 (length ca)) ca ca cb = Ok (Some false) ->
  _separating_axis_test ca cb = Ok false.
Proof. intros H. unfold _separating_axis_test. simpl. rewrite H. reflexivity. Qed.


(** The corners of an unrotated sprite. *)
Lemma get_corners_unrotated s :
  rotation s = 0 ->
  let cx := IZR (fst (hitbox_center s)) in
  let cy := IZR (snd (hitbox_center s)) in
  let hw := fst (hitbox_size s) / 2 in
  let hh := snd (hitbox_size s) / 2 in
  _get_corners s =
    [(cx + - hw, cy + - hh); (cx + hw, cy + - hh);
     (cx + hw, cy + hh); (cx + - hw, cy + hh)].
Proof.
  intros Hr. unfold _get_corners.
  rewrite (proj2 (float_eq_true _ _) Hr). reflexivity.
Qed.

(** Rewrites the corners of an unrotated fixture to explicit numbers. *)
Ltac unrotated_corners s :=
  rewrite (get_corners_unrotated s eq_refl);
  unfold hitbox_center, hitbox_size; cbn;
  rewrite !py_int_IZR, !Z.add_0_r.

(** The right-hand edge of an unrotated rectangle of non-zero height
    separates two polygons with disjoint x ranges. *)
Lemma unrotated_tests_x s ca cb :
  rotation s = 0 -> snd (hitbox_size s) <> 0 ->
  ca <> [] -> cb <> [] -> ranges_disjoint (xs ca) (xs cb) ->
  sat_edges (seq 0 (length (_get_corners s))) (_get_corners s) ca cb
  = Ok (Some false).
Proof.
  intros Hr Hh Ha Hb Hd. rewrite (get_corners_unrotated s Hr). cbv zeta.
  eapply (sat_edges_found _ _ ca cb 1%nat);
    [apply seq_in_range|exact Ha|exact Hb|simpl; auto|reflexivity|reflexivity|].
  apply sat_edge_vertical; [lra|exact Hd].
Qed.

(** The top edge of an unrotated rectangle of non-zero width separates
    two polygons with disjoint y ranges. *)
Lemma unrotated_tests_y s ca cb :
  rotation s = 0 -> fst (hitbox_size s) <> 0 ->
  ca <> [] -> cb <> [] -> ranges_disjoint (ys ca) (ys cb) ->
  sat_edges (seq 0 (length (_get_corners s))) (_get_corners s) ca cb
  = Ok (Some false).
Proof.
  intros Hr Hw Ha Hb Hd. rewrite (get_corners_unrotated s Hr). cbv zeta.
  eapply (sat_edges_found _ _ ca cb 0%nat);
    [apply seq_in_range|exact Ha|exact Hb|simpl; auto|reflexivity|reflexivity|].
  apply sat_edge_horizontal; [lra|exact Hd].
Qed.


Lemma fold_Rmax_below m l : forall x,
  x < m -> Forall (fun v => v < m) l -> fold_left Rmax l x < m.
Proof.
  induction l as [|y l IH]; intros x Hx Hl; simpl; [exact Hx|].
  inversion Hl; subst. apply IH; [|assumption].
  unfold Rmax. destruct (Rle_dec x y); assumption.
Qed.

Lemma fold_Rmin_above m l : forall x,
  m < x -> Forall (fun v => m < v) l -> m < fold_left Rmin l x.
Proof.
  induction l as [|y l IH]; intros x Hx Hl; simpl; [exact Hx|].
  inversion Hl; subst. apply IH; [|assumption].
  unfold Rmin. destruct (Rle_dec x y); assumption.
Qed.

(** A value between all of [la] and all of [lb] shows the ranges
    disjoint. *)
Lemma ranges_disjoint_gap m la lb :
  la <> [] -> lb <> [] ->
  Forall (fun v => v < m) la -> Forall (fun v => m < v) lb ->
  ranges_disjoint la lb.
Proof.
  intros Na Nb Ha Hb.
  destruct la as [|a la]; [congruence|]. destruct lb as [|b lb]; [congruence|].
  inversion Ha; subst. inversion Hb; subst.
  unfold ranges_disjoint. simpl. do 4 eexists.
  repeat (split; [reflexivity|]). left.
  apply Rlt_trans with m; [apply fold_Rmax_below|apply fold_Rmin_above];
    assumption.
Qed.



(** *** Hitboxes of height or width zero *)









Lemma index_Forall {A : Type} (P : A -> Prop) (l : list A) i a :
  Forall P l -> index l i = Ok a -> P a.
Proof.
  intros Hl. unfold index. destruct (nth_error l i) as [x|] eqn:E;
    [|discriminate].
  intros H. injection H as <-. revert i E.
  induction Hl as [|y l Hy _ IH]; intros [|i] E; simpl in E; try discriminate.
  - injection E as <-. exact Hy.
  - eapply IH. exact E.
Qed.






End SpriteProofs.

(** * The collision tests and the float range *)

Module OverflowProofs.

Import Sprite.
Import SpriteProofs.
Open Scope R_scope.

(** ** Squares and roots near the float range *)

Lemma bound_squares_fit :
  (8 * (Overflow.coordinate_bound * Overflow.coordinate_bound)
   < float_overflow)%Z.
Proof. vm_compute. reflexivity. Qed.

Lemma coordinate_bound_pos : 0 < IZR Overflow.coordinate_bound.
Proof. apply IZR_lt. vm_compute. reflexivity. Qed.

Lemma float_overflow_pos : 0 < IZR float_overflow.
Proof. apply IZR_lt. vm_compute. reflexivity. Qed.

(** Four times the square of an ordinary coordinate is inside the float
    range. *)
Lemma bound_squares_fit_R :
  4 * (IZR Overflow.coordinate_bound * IZR Overflow.coordinate_bound)
  < IZR float_overflow.
Proof.
  rewrite <- mult_IZR. change 4 with (IZR 4). rewrite <- mult_IZR.
  apply IZR_lt. pose proof bound_squares_fit.
  assert (0 < Overflow.coordinate_bound * Overflow.coordinate_bound)%Z
    by (vm_compute; reflexivity).
  lia.
Qed.

Lemma float_pow2_fits x : x ^ 2 < IZR float_overflow -> float_pow2 x = Ok (x ^ 2).
Proof.
  intros H. unfold float_pow2.
  rewrite (proj2 (float_le_false _ _) H). reflexivity.
Qed.

Lemma float_pow2_overflows x :
  IZR float_overflow <= x ^ 2 -> float_pow2 x = Raise OverflowError.
Proof.
  intros H. unfold float_pow2.
  rewrite (proj2 (float_le_true _ _) H). reflexivity.
Qed.

Lemma math_sqrt_int_fits n :
  (Z.abs n < float_overflow)%Z -> math_sqrt_int n = math_sqrt (IZR n).
Proof.
  intros H. unfold math_sqrt_int.
  destruct (float_overflow <=? Z.abs n)%Z eqn:E; [|reflexivity].
  apply Z.leb_le in E. lia.
Qed.

Lemma math_sqrt_int_refines n v :
  math_sqrt_int n = Ok v -> math_sqrt (IZR n) = Ok v.
Proof.
  unfold math_sqrt_int.
  destruct (float_overflow <=? Z.abs n)%Z; [discriminate|auto].
Qed.

(** The square of a difference of two ordinary coordinates fits. *)
Lemma difference_fits (B F u v : R) :
  4 * (B * B) < F -> Rabs u <= B -> Rabs v <= B -> (v - u) ^ 2 < F.
Proof.
  intros HB Hu Hv.
  assert (Hu' : - B <= u <= B) by (revert Hu; unfold Rabs; destruct (Rcase_abs u); lra).
  assert (Hv' : - B <= v <= B) by (revert Hv; unfold Rabs; destruct (Rcase_abs v); lra).
  nra.
Qed.

(** A half extent turned by an angle: the square of [2 * half * c] fits
    when the full extent is ordinary and [c] is a sine or a cosine. *)
Lemma turned_extent_fits (B F half c e : R) :
  4 * (B * B) < F -> Rabs (2 * half) <= B -> c ^ 2 <= 1 ->
  e ^ 2 = (2 * half * c) ^ 2 -> e ^ 2 < F.
Proof.
  intros HB Hh Hc ->.
  assert (Hw : (2 * half) ^ 2 <= B * B).
  { rewrite <- pow2_abs. pose proof (Rabs_pos (2 * half)). nra. }
  assert (Hp : 0 <= (2 * half) ^ 2 * (1 - c ^ 2)).
  { apply Rmult_le_pos; [apply pow2_ge_0|lra]. }
  replace ((2 * half * c) ^ 2) with ((2 * half) ^ 2 * c ^ 2) by ring.
  nra.
Qed.

(** ** One edge *)

(** Inside the float range the two models of an edge agree. *)
Lemma sat_edge_fits p1 p2 ca cb :
  Overflow.edge_fits p1 p2 ->
  Overflow.sat_edge p1 p2 ca cb = sat_edge p1 p2 ca cb.
Proof.
  intros [H1 H0]. unfold Overflow.sat_edge, sat_edge. cbn [fst snd].
  rewrite (float_pow2_fits (- (snd p2 - snd p1))).
  2:{ replace ((- (snd p2 - snd p1)) ^ 2) with ((snd p2 - snd p1) ^ 2) by ring.
      exact H1. }
  rewrite (float_pow2_fits _ H0). reflexivity.
Qed.

(** Whatever the model with overflow returns, the model without returns
    too. *)
Lemma sat_edge_refines p1 p2 ca cb r :
  Overflow.sat_edge p1 p2 ca cb = Ok r -> sat_edge p1 p2 ca cb = Ok r.
Proof.
  unfold Overflow.sat_edge, sat_edge, float_pow2. cbn [fst snd].
  destruct (float_le _ ((- (snd p2 - snd p1)) ^ 2)); [discriminate|].
  cbn [bind].
  destruct (float_le _ ((fst p2 - fst p1) ^ 2)); [discriminate|].
  cbn [bind]. auto.
Qed.

(** A horizontal edge too long to be squared raises. *)
Lemma sat_edge_overflows p1 p2 ca cb :
  snd p2 = snd p1 -> IZR float_overflow <= (fst p2 - fst p1) ^ 2 ->
  Overflow.sat_edge p1 p2 ca cb = Raise OverflowError.
Proof.
  intros Hy Hx. unfold Overflow.sat_edge. cbn [fst snd].
  rewrite (float_pow2_fits (- (snd p2 - snd p1))).
  2:{ rewrite Hy. replace ((- (snd p1 - snd p1)) ^ 2) with 0 by ring.
      apply float_overflow_pos. }
  cbn [bind]. rewrite (float_pow2_overflows _ Hx). reflexivity.
Qed.

Lemma zero_edge_skipped p ca cb : Overflow.sat_edge p p ca cb = Ok None.
Proof.
  rewrite sat_edge_fits; [apply SpriteProofs.sat_edge_degenerate|].
  split; [replace ((snd p - snd p) ^ 2) with 0 by ring
         |replace ((fst p - fst p) ^ 2) with 0 by ring];
    apply float_overflow_pos.
Qed.

(** ** The loops *)

Lemma sat_edges_fit idx corners ca cb :
  Overflow.edges_fit corners ->
  Overflow.sat_edges idx corners ca cb = sat_edges idx corners ca cb.
Proof.
  intros Hfit. induction idx as [|i idx IH]; [reflexivity|]. simpl.
  destruct (index corners i) as [p1|e1] eqn:E1; [|reflexivity].
  destruct (index corners ((i + 1) mod length corners)) as [p2|e2] eqn:E2;
    [|reflexivity].
  cbn [bind]. rewrite (sat_edge_fits p1 p2 ca cb (Hfit i p1 p2 E1 E2)).
  destruct (sat_edge p1 p2 ca cb) as [[b|]|e]; cbn [bind]; auto.
Qed.

Lemma sat_edges_refines idx corners ca cb r :
  Overflow.sat_edges idx corners ca cb = Ok r ->
  sat_edges idx corners ca cb = Ok r.
Proof.
  induction idx as [|i idx IH]; simpl; [auto|].
  destruct (index corners i) as [p1|e1]; [|discriminate].
  destruct (index corners ((i + 1) mod length corners)) as [p2|e2];
    [|discriminate].
  cbn [bind].
  destruct (Overflow.sat_edge p1 p2 ca cb) as [x|e] eqn:E; [|discriminate].
  rewrite (sat_edge_refines _ _ _ _ _ E). cbn [bind].
  destruct x; auto.
Qed.

Lemma sat_fits ca cb :
  Overflow.edges_fit ca -> Overflow.edges_fit cb ->
  Overflow._separating_axis_test ca cb = _separating_axis_test ca cb.
Proof.
  intros Ha Hb. unfold Overflow._separating_axis_test, _separating_axis_test.
  simpl. rewrite !sat_edges_fit by assumption. reflexivity.
Qed.

Lemma sat_refines ca cb r :
  Overflow._separating_axis_test ca cb = Ok r ->
  _separating_axis_test ca cb = Ok r.
Proof.
  unfold Overflow._separating_axis_test, _separating_axis_test. simpl.
  destruct (Overflow.sat_edges _ ca ca cb) as [x|e] eqn:Ea; [|discriminate].
  rewrite (sat_edges_refines _ _ _ _ _ Ea). cbn [bind].
  destruct x as [b|]; [auto|].
  destruct (Overflow.sat_edges _ cb ca cb) as [y|e] eqn:Eb; [|discriminate].
  rewrite (sat_edges_refines _ _ _ _ _ Eb). cbn [bind]. auto.
Qed.

(** ** Polygons of ordinary size *)

(** The corners with the half extents named. *)
Lemma get_corners_turned s :
  let cx := IZR (fst (hitbox_center s)) in
  let cy := IZR (snd (hitbox_center s)) in
  let hw := fst (hitbox_size s) / 2 in
  let hh := snd (hitbox_size s) / 2 in
  let c := cos (math_radians (- rotation s)) in
  let sn := sin (math_radians (- rotation s)) in
  _get_corners s =
    [(cx + (- hw * c - - hh * sn), cy + (- hw * sn + - hh * c));
     (cx + (hw * c - - hh * sn), cy + (hw * sn + - hh * c));
     (cx + (hw * c - hh * sn), cy + (hw * sn + hh * c));
     (cx + (- hw * c - hh * sn), cy + (- hw * sn + hh * c))].
Proof.
  rewrite get_corners_spec. unfold spec_corners, hitbox_size, hitbox_center.
  destruct (custom_hitbox_size s) as [[w h]|]; reflexivity.
Qed.

(** Turning a rectangle does not make its sides longer, so every edge of
    a hitbox of ordinary size can be tested. *)
Lemma corners_edges_fit s :
  Overflow.in_range s -> Overflow.edges_fit (_get_corners s).
Proof.
  intros (Hw & Hh & _). rewrite get_corners_turned. cbv zeta.
  set (hw := fst (hitbox_size s) / 2). set (hh := snd (hitbox_size s) / 2).
  replace (fst (hitbox_size s)) with (2 * hw) in Hw by (unfold hw; lra).
  replace (snd (hitbox_size s)) with (2 * hh) in Hh by (unfold hh; lra).
  clearbody hw hh.
  pose proof (sin2_cos2 (math_radians (- rotation s))) as Hsc.
  unfold Rsqr in Hsc.
  generalize dependent (sin (math_radians (- rotation s))).
  generalize dependent (cos (math_radians (- rotation s))).
  generalize (IZR (fst (hitbox_center s))) (IZR (snd (hitbox_center s))).
  intros cx cy c sn Hsc.
  assert (Hc : c ^ 2 <= 1) by nra. assert (Hs : sn ^ 2 <= 1) by nra.
  pose proof bound_squares_fit_R as HB.
  intros i p1 p2 H1 H2.
  unfold index in H1, H2.
  destruct i as [|[|[|[|i]]]]; simpl in H1, H2;
    [| | | |destruct i; discriminate H1];
    injection H1 as <-; injection H2 as <-; split; cbn [fst snd];
    first
      [ apply (turned_extent_fits _ _ hw c _ HB Hw Hc); ring
      | apply (turned_extent_fits _ _ hw sn _ HB Hw Hs); ring
      | apply (turned_extent_fits _ _ hh c _ HB Hh Hc); ring
      | apply (turned_extent_fits _ _ hh sn _ HB Hh Hs); ring ].
Qed.

Lemma polygon_edges_fit corners :
  Overflow.polygon_in_range corners -> Overflow.edges_fit corners.
Proof.
  intros Hp i p1 p2 H1 H2.
  pose proof (index_Forall _ _ _ _ Hp H1) as [Hx1 Hy1].
  pose proof (index_Forall _ _ _ _ Hp H2) as [Hx2 Hy2].
  pose proof bound_squares_fit_R as HB.
  split; eapply difference_fits; eassumption.
Qed.

(** ** Circles *)

Lemma circle_circle_fits a b :
  Overflow.in_range a -> Overflow.in_range b ->
  Overflow._check_circle_collision a b = _check_circle_collision a b.
Proof.
  intros (_ & _ & Hxa & Hya & _) (_ & _ & Hxb & Hyb & _).
  unfold Overflow._check_circle_collision, _check_circle_collision.
  rewrite math_sqrt_int_fits; [reflexivity|].
  pose proof bound_squares_fit as HB.
  revert Hxa Hya Hxb Hyb HB.
  generalize (fst (hitbox_center a)) (snd (hitbox_center a))
             (fst (hitbox_center b)) (snd (hitbox_center b))
             Overflow.coordinate_bound float_overflow.
  intros xa ya xb yb B F Hxa Hya Hxb Hyb HB.
  assert (Hsq : forall d : Z, (Z.abs d <= 2 * B -> 0 <= d * d <= 4 * (B * B))%Z).
  { intros d Hd.
    assert (0 <= (2 * B - d) * (2 * B + d))%Z
      by (apply Z.mul_nonneg_nonneg; lia).
    nia. }
  pose proof (Hsq (xb - xa)%Z ltac:(lia)) as Hdx.
  pose proof (Hsq (yb - ya)%Z ltac:(lia)) as Hdy.
  lia.
Qed.

Lemma circle_circle_refines a b r :
  Overflow._check_circle_collision a b = Ok r ->
  _check_circle_collision a b = Ok r.
Proof.
  unfold Overflow._check_circle_collision, _check_circle_collision.
  destruct (math_sqrt_int _) as [d|e] eqn:E; [|discriminate].
  rewrite (math_sqrt_int_refines _ _ E). auto.
Qed.

(** ** The dispatch *)

(** On sprites of ordinary size nothing overflows: the two models of
    [collides_with] agree. *)
Lemma collides_with_fits a b :
  Overflow.in_range a -> Overflow.in_range b ->
  Overflow.collides_with a b = collides_with a b.
Proof.
  intros Ha Hb. unfold Overflow.collides_with, collides_with.
  destruct (is_circle (hitbox_shape a) && is_circle (hitbox_shape b));
    [apply circle_circle_fits; assumption|].
  destruct (is_circle (hitbox_shape a) || is_circle (hitbox_shape b));
    [reflexivity|].
  apply sat_fits; apply corners_edges_fit; assumption.
Qed.

(** Everywhere, a result of the model with overflow is the result of
    the model without. *)
Lemma collides_with_refines a b r :
  Overflow.collides_with a b = Ok r -> collides_with a b = Ok r.
Proof.
  unfold Overflow.collides_with, collides_with.
  destruct (is_circle (hitbox_shape a) && is_circle (hitbox_shape b));
    [apply circle_circle_refines|].
  destruct (is_circle (hitbox_shape a) || is_circle (hitbox_shape b));
    [auto|].
  apply sat_refines.
Qed.

Lemma in_range_collides_with_returns a b :
  well_formed a -> well_formed b ->
  Overflow.in_range a -> Overflow.in_range b ->
  returns (Overflow.collides_with a b).
Proof.
  intros Wa Wb Ha Hb. rewrite (collides_with_fits a b Ha Hb).
  apply SpriteProofs.collides_with_returns; assumption.
Qed.


(** ** Beyond the float range *)

(** An error at the first edge of the first polygon ends the test. *)
Lemma sat_raises_at_first_edge (c0 c1 c2 c3 : point) (cb : list point) e :
  Overflow.sat_edge c0 c1 [c0; c1; c2; c3] cb = Raise e ->
  Overflow._separating_axis_test [c0; c1; c2; c3] cb = Raise e.
Proof.
  intros H. unfold Overflow._separating_axis_test. simpl. rewrite H.
  reflexivity.
Qed.

(** An unrotated rectangle hitbox too wide for its width to be squared:
    the call on it raises at its first edge, whatever the other
    rectangle is. *)
Lemma wide_sprite_raises s other :
  hitbox_shape s = Rect -> hitbox_shape other = Rect -> rotation s = 0 ->
  IZR float_overflow <= fst (hitbox_size s) ^ 2 ->
  Overflow.collides_with s other = Raise OverflowError.
Proof.
  intros Hs Ho Hr Hw. unfold Overflow.collides_with. rewrite Hs, Ho.
  cbn [is_circle andb orb]. unfold Overflow._check_precise_rect_collision.
  rewrite (get_corners_unrotated s Hr). cbv zeta.
  apply sat_raises_at_first_edge. apply sat_edge_overflows; cbn [fst snd].
  - reflexivity.
  - replace (IZR (fst (hitbox_center s)) + fst (hitbox_size s) / 2
             - (IZR (fst (hitbox_center s)) + - (fst (hitbox_size s) / 2)))
      with (fst (hitbox_size s)) by lra.
    exact Hw.
Qed.

Lemma huge_scale : Rmax (1 / 10) (IZR (10 ^ 154)) = IZR (10 ^ 154).
Proof.
  apply Rmax_right.
  assert (1 <= IZR (10 ^ 154)) by (apply IZR_le; vm_compute; discriminate).
  lra.
Qed.

Lemma far_big_width : fst (hitbox_size Fixtures.far_big) = IZR (64 * 10 ^ 154).
Proof.
  change (fst (hitbox_size Fixtures.far_big))
    with (IZR 64 * Rmax (1 / 10) (IZR (10 ^ 154))).
  rewrite huge_scale, <- mult_IZR. reflexivity.
Qed.

Lemma far_big_raises :
  Overflow.collides_with Fixtures.far_big Fixtures.box_a = Raise OverflowError.
Proof.
  apply wide_sprite_raises; try reflexivity.
  rewrite far_big_width, pow_IZR. apply IZR_le. vm_compute. discriminate.
Qed.

Lemma far_discs_raise :
  Overflow.collides_with (Fixtures.disc 0) (Fixtures.disc (10 ^ 160))
  = Raise OverflowError.
Proof.
  unfold Overflow.collides_with.
  change (hitbox_shape (Fixtures.disc 0)) with Circle.
  change (hitbox_shape (Fixtures.disc (10 ^ 160))) with Circle.
  cbn [is_circle andb]. unfold Overflow._check_circle_collision.
  unfold hitbox_center.
  change (_position (Fixtures.disc 0)) with (IZR 0, IZR 0).
  change (_position (Fixtures.disc (10 ^ 160))) with (IZR (10 ^ 160), IZR 0).
  cbn [fst snd]. rewrite !py_int_IZR.
  unfold math_sqrt_int.
  match goal with
  | |- context [(float_overflow <=? ?n)%Z] =>
      replace (float_overflow <=? n)%Z with true
        by (vm_compute; reflexivity)
  end.
  reflexivity.
Qed.

(** A separating edge of the first polygon decides the test before any
    edge of the second is looked at. *)
Lemma first_polygon_decides a b :
  hitbox_shape a = Rect -> hitbox_shape b = Rect -> rotation a = 0 ->
  Overflow.in_range a -> snd (hitbox_size a) <> 0 ->
  ranges_disjoint (xs (_get_corners a)) (xs (_get_corners b)) ->
  Overflow.collides_with a b = Ok false.
Proof.
  intros Ha Hb Hr Hin Hh Hd. unfold Overflow.collides_with. rewrite Ha, Hb.
  cbn [is_circle andb orb].
  unfold Overflow._check_precise_rect_collision, Overflow._separating_axis_test.
  cbn [Overflow.sat_polygons].
  rewrite (sat_edges_fit _ _ _ _ (corners_edges_fit a Hin)).
  rewrite (unrotated_tests_x a _ _ Hr Hh (get_corners_nonempty a)
             (get_corners_nonempty b) Hd).
  reflexivity.
Qed.

Lemma coordinate_bound_large : 1000000 <= IZR Overflow.coordinate_bound.
Proof. apply IZR_le. vm_compute. discriminate. Qed.

(** Shows a fixture with small numbers to be of ordinary size. *)
Ltac ordinary_size :=
  unfold Overflow.in_range, hitbox_size, hitbox_center; cbn;
  rewrite ?py_int_IZR, ?Z.add_0_r;
  pose proof coordinate_bound_large;
  repeat split;
    solve [ apply Rabs_le; lra | vm_compute; discriminate ].

Lemma box_a_in_range : Overflow.in_range Fixtures.box_a.
Proof. ordinary_size. Qed.

Lemma ball_in_range : Overflow.in_range Fixtures.ball.
Proof. ordinary_size. Qed.

Lemma tilted_in_range : Overflow.in_range Fixtures.tilted.
Proof. ordinary_size. Qed.

Lemma far_big_centre : fst (hitbox_center Fixtures.far_big) = (10 ^ 160)%Z.
Proof.
  change (fst (hitbox_center Fixtures.far_big))
    with (py_int (IZR (10 ^ 160)) + 0)%Z.
  rewrite py_int_IZR. apply Z.add_0_r.
Qed.

(** The x ranges [-32, 32] and 1e160 -+ 3.2e155 leave a gap. *)
Lemma far_big_x_disjoint :
  ranges_disjoint (xs (_get_corners Fixtures.box_a))
                  (xs (_get_corners Fixtures.far_big)).
Proof.
  unrotated_corners Fixtures.box_a.
  rewrite (get_corners_unrotated Fixtures.far_big eq_refl). cbv zeta.
  rewrite far_big_width, far_big_centre.
  replace (10 ^ 160)%Z with (1000000 * 10 ^ 154)%Z by (vm_compute; reflexivity).
  rewrite !mult_IZR.
  assert (Hs : 1 <= IZR (10 ^ 154)) by (apply IZR_le; vm_compute; discriminate).
  revert Hs. generalize (IZR (10 ^ 154)). intros S Hs.
  unfold xs. cbn [map fst snd].
  apply (ranges_disjoint_gap 35); try discriminate;
    repeat constructor; lra.
Qed.

Lemma box_a_far_big_apart :
  Overflow.collides_with Fixtures.box_a Fixtures.far_big = Ok false.
Proof.
  apply first_polygon_decides; try reflexivity.
  - apply box_a_in_range.
  - cbn. lra.
  - apply far_big_x_disjoint.
Qed.

(** ** Symmetry *)

(** Read for all well-formed sprites, the claim fails beyond the float
    range: the 64x64 sprite at the origin and the sprite at x = 1e160
    scaled by 1e154 are told apart by the small sprite's second edge
    when the small sprite receives the call; when the large one receives
    it, squaring its first edge raises [OverflowError]. *)
Lemma C4_overflow_counterexample :
  well_formed Fixtures.box_a /\ well_formed Fixtures.far_big /\
  Overflow.collides_with Fixtures.box_a Fixtures.far_big = Ok false /\
  Overflow.collides_with Fixtures.far_big Fixtures.box_a = Raise OverflowError /\
  Overflow.collides_with Fixtures.box_a Fixtures.far_big
  <> Overflow.collides_with Fixtures.far_big Fixtures.box_a.
Proof.
  split; [intros H; discriminate H|]. split; [intros H; discriminate H|].
  split; [apply box_a_far_big_apart|]. split; [apply far_big_raises|].
  rewrite box_a_far_big_apart, far_big_raises. discriminate.
Qed.

(** C4 (amended).  For two sprites with well-formed hitbox
    configurations, whenever [a.collides_with(b)] and
    [b.collides_with(a)] both return they return the same boolean,
    whatever the two shapes are; and when the hitbox widths, heights and
    centre coordinates of both are at most 1e150 in absolute value, both
    calls do return. *)
Theorem C4_collides_with_symmetric (a b : AnimatedSprite) :
  well_formed a -> well_formed b ->
  (forall r1 r2 : bool,
     Overflow.collides_with a b = Ok r1 ->
     Overflow.collides_with b a = Ok r2 -> r1 = r2) /\
  (Overflow.in_range a -> Overflow.in_range b ->
   exists r : bool,
     Overflow.collides_with a b = Ok r /\ Overflow.collides_with b a = Ok r).
Proof.
  intros Wa Wb. split.
  - intros r1 r2 H1 H2.
    apply collides_with_refines in H1. apply collides_with_refines in H2.
    rewrite (collides_with_sym a b) in H1. congruence.
  - intros Ha Hb.
    destruct (in_range_collides_with_returns a b Wa Wb Ha Hb) as [r Hr].
    exists r. split; [exact Hr|].
    rewrite (collides_with_fits b a Hb Ha), <- (collides_with_sym a b).
    rewrite <- (collides_with_fits a b Ha Hb). exact Hr.
Qed.

Lemma C4_collides_with_symmetric_witness :
  (forall r1 r2 : bool,
     Overflow.collides_with Fixtures.ball Fixtures.tilted = Ok r1 ->
     Overflow.collides_with Fixtures.tilted Fixtures.ball = Ok r2 -> r1 = r2) /\
  (Overflow.in_range Fixtures.ball -> Overflow.in_range Fixtures.tilted ->
   exists r : bool,
     Overflow.collides_with Fixtures.ball Fixtures.tilted = Ok r /\
     Overflow.collides_with Fixtures.tilted Fixtures.ball = Ok r).
Proof.
  apply (C4_collides_with_symmetric Fixtures.ball Fixtures.tilted).
  - intros _. eexists. reflexivity.
  - intros H. discriminate H.
Defined.

(** The circle and the turned sprite of the fixtures are of ordinary
    size, so both calls return, with the same result. *)
Example ball_and_tilted_agree :
  exists r : bool,
    Overflow.collides_with Fixtures.ball Fixtures.tilted = Ok r /\
    Overflow.collides_with Fixtures.tilted Fixtures.ball = Ok r.
Proof.
  rewrite (collides_with_fits _ _ ball_in_range tilted_in_range).
  rewrite (collides_with_fits _ _ tilted_in_range ball_in_range).
  rewrite (collides_with_sym Fixtures.tilted Fixtures.ball).
  destruct (SpriteProofs.collides_with_returns Fixtures.ball Fixtures.tilted)
    as [r Hr].
  - intros _. eexists. reflexivity.
  - intros H. discriminate H.
  - exists r. auto.
Qed.

(** ** No exceptions *)

Lemma in_range_sat_returns ca cb :
  ca <> [] -> cb <> [] ->
  Overflow.polygon_in_range ca -> Overflow.polygon_in_range cb ->
  returns (Overflow._separating_axis_test ca cb).
Proof.
  intros Na Nb Ha Hb.
  rewrite (sat_fits ca cb (polygon_edges_fit ca Ha) (polygon_edges_fit cb Hb)).
  apply SpriteProofs.sat_returns; assumption.
Qed.

(** Read for all well-formed sprites, the claim fails beyond the float
    range: the call on the sprite scaled by 1e154 raises
    [OverflowError] when its first edge is squared, and so does the
    call on two circles 1e160 pixels apart when [math.sqrt] receives the
    squared distance. *)
Lemma C9_overflow_counterexample :
  well_formed Fixtures.far_big /\ well_formed Fixtures.box_a /\
  Overflow.collides_with Fixtures.far_big Fixtures.box_a = Raise OverflowError /\
  well_formed (Fixtures.disc 0) /\ well_formed (Fixtures.disc (10 ^ 160)) /\
  Overflow.collides_with (Fixtures.disc 0) (Fixtures.disc (10 ^ 160))
  = Raise OverflowError.
Proof.
  split; [intros H; discriminate H|]. split; [intros H; discriminate H|].
  split; [apply far_big_raises|].
  split; [intros _; eexists; reflexivity|].
  split; [intros _; eexists; reflexivity|].
  apply far_discs_raise.
Qed.

(** C9 (amended).  For two sprites with well-formed hitbox
    configurations whose hitbox widths, heights and centre coordinates
    are at most 1e150 in absolute value, [collides_with] returns a
    boolean; on polygons with at least one corner and on points with
    coordinates of that size the separating axis test, the
    point-in-polygon test and the point-to-segment distance return; an
    edge of length zero is skipped by the separating axis test; and the
    distance from a point to a segment of length zero is the distance to
    its end point. *)
Theorem C9_collision_never_raises (a b : AnimatedSprite) :
  well_formed a -> well_formed b ->
  Overflow.in_range a -> Overflow.in_range b ->
  returns (Overflow.collides_with a b) /\
  (forall ca cb, ca <> [] -> cb <> [] ->
     Overflow.polygon_in_range ca -> Overflow.polygon_in_range cb ->
     returns (Overflow._separating_axis_test ca cb)) /\
  (forall pt polygon, polygon <> [] ->
     Overflow.polygon_in_range (pt :: polygon) ->
     returns (_point_in_polygon pt polygon)) /\
  (forall pt p1 p2, Overflow.polygon_in_range [pt; p1; p2] ->
     returns (_point_to_line_distance pt p1 p2)) /\
  (forall p ca cb, Overflow.sat_edge p p ca cb = Ok None) /\
  (forall px py x1 y1,
     _point_to_line_distance (px, py) (x1, y1) (x1, y1)
     = Ok (sqrt ((px - x1) * (px - x1) + (py - y1) * (py - y1)))).
Proof.
  intros Wa Wb Ha Hb. split; [apply in_range_collides_with_returns; assumption|].
  split; [apply in_range_sat_returns|].
  split; [intros pt polygon Hne _; apply point_in_polygon_returns; exact Hne|].
  split; [intros pt p1 p2 _; apply point_to_line_distance_returns|].
  split; [apply zero_edge_skipped|apply point_to_line_distance_degenerate].
Qed.

Lemma C9_collision_never_raises_witness :
  returns (Overflow.collides_with Fixtures.tilted Fixtures.ball) /\
  (forall ca cb, ca <> [] -> cb <> [] ->
     Overflow.polygon_in_range ca -> Overflow.polygon_in_range cb ->
     returns (Overflow._separating_axis_test ca cb)) /\
  (forall pt polygon, polygon <> [] ->
     Overflow.polygon_in_range (pt :: polygon) ->
     returns (_point_in_polygon pt polygon)) /\
  (forall pt p1 p2, Overflow.polygon_in_range [pt; p1; p2] ->
     returns (_point_to_line_distance pt p1 p2)) /\
  (forall p ca cb, Overflow.sat_edge p p ca cb = Ok None) /\
  (forall px py x1 y1,
     _point_to_line_distance (px, py) (x1, y1) (x1, y1)
     = Ok (sqrt ((px - x1) * (px - x1) + (py - y1) * (py - y1)))).
Proof.
  apply (C9_collision_never_raises Fixtures.tilted Fixtures.ball).
  - intros H. discriminate H.
  - intros _. eexists. reflexivity.
  - apply tilted_in_range.
  - apply ball_in_range.
Defined.

End OverflowProofs.


(** * Further properties of the animation manager *)

Module AnimExtra.

Import Anim.
Open Scope Q_scope.

Lemma new_Animation_valid n fs rate lp a :
  new_Animation n fs rate lp = Ok a -> valid_clip a.
Proof.
  intros H. apply AnimProofs.new_Animation_inv in H.
  destruct H as (Hne & Hr & ->). split; [exact Hne|]. simpl.
  unfold Qdiv. rewrite Qmult_1_l. apply Qinv_lt_0_compat. exact Hr.
Qed.

Lemma len_pos {A : Type} (l : list A) : l <> [] -> (0 < len l)%Z.
Proof. destruct l; [congruence|]. intros _. unfold len. simpl. lia. Qed.

Lemma run_app ops1 ops2 m : run (ops1 ++ ops2) m = run ops2 (run ops1 m).
Proof. unfold run. apply fold_left_app. Qed.

(** ** The timing invariant *)

Lemma timing_inv_init : timing_inv init.
Proof.
  unfold timing_inv, init. simpl.
  split; [|split; [lia|split; [apply Qle_refl|discriminate]]].
  intros n a H. rewrite lookup_empty in H. discriminate.
Qed.

Lemma timing_inv_stop m : timing_inv m -> timing_inv (stop m).
Proof.
  intros (Hreg & Hi & Ht & Hc). unfold timing_inv, stop. simpl.
  split; [exact Hreg|split; [lia|split; [apply Qle_refl|]]].
  intros a H. destruct (Hc a H) as (Hv & _ & _).
  split; [exact Hv|]. split; [apply len_pos; apply Hv|apply Hv].
Qed.

Lemma timing_inv_step m o : sane_op o -> timing_inv m -> timing_inv (step m o).
Proof.
  intros Ho Hinv. pose proof Hinv as (Hreg & Hi & Ht & Hc).
  destruct o as [a|now n restart| | | |dt|n|]; simpl in *.
  - unfold timing_inv, add_animation. simpl.
    split; [|split; [exact Hi|split; [exact Ht|exact Hc]]].
    intros n a' H. rewrite lookup_insert in H. case_decide.
    + injection H as <-. apply Ho.
    + apply (Hreg n a' H).
  - unfold play_animation. destruct (animations m !! n) as [a|] eqn:Hl;
      [|exact Hinv].
    destruct (bool_decide _ && _ && _ && _); [exact Hinv|].
    unfold timing_inv. simpl. split; [exact Hreg|].
    split; [lia|]. split; [apply Qle_refl|].
    intros a' H. injection H as <-. pose proof (Hreg n a Hl) as Hv.
    split; [exact Hv|]. split; [apply len_pos; apply Hv|apply Hv].
  - apply timing_inv_stop. exact Hinv.
  - unfold pause. destruct (is_playing m); exact Hinv.
  - unfold resume. destruct (is_playing m && is_paused m); exact Hinv.
  - unfold update.
    destruct (negb (is_playing m) || is_paused m); [exact Hinv|].
    destruct (current_animation m) as [a|] eqn:Hcur; [|exact Hinv].
    destruct (Hc a eq_refl) as (Hv & Hlt & Htl).
    destruct (finished m && negb (loop a)); [exact Hinv|].
    destruct (Qle_bool (frame_duration a) (frame_timer m + dt)) eqn:Hq.
    + destruct (len (frames a) <=? current_frame_index m + 1)%Z eqn:Hle;
        [destruct (loop a)|]; unfold timing_inv; simpl; rewrite Hcur;
        (split; [exact Hreg|]); (split; [lia|]); (split; [apply Qle_refl|]);
        intros a' H; injection H as <-; (split; [exact Hv|]);
        (split; [|apply Hv]); lia.
    + unfold timing_inv. simpl. rewrite Hcur. split; [exact Hreg|].
      split; [exact Hi|].
      split; [apply Qle_trans with (0 + 0); [apply Qle_refl|
              apply Qplus_le_compat; assumption]|].
      intros a' H. injection H as <-. split; [exact Hv|]. split; [exact Hlt|].
      apply Qnot_le_lt. intros Hle. apply Qle_bool_iff in Hle. congruence.
  - unfold remove_animation. destruct (animations m !! n) as [a|]; [|exact Hinv].
    assert (Hdel : forall m1, timing_inv m1 ->
      timing_inv (mkManager (delete n (animations m1))
                 (current_animation m1) (current_animation_name m1)
                 (current_frame_index m1) (frame_timer m1) (start_time m1)
                 (is_playing m1) (is_paused m1) (finished m1))).
    { intros m1 (Hreg1 & Hrest). split; [|exact Hrest]. simpl.
      intros k a' H. rewrite lookup_delete in H. case_decide; [discriminate|].
      apply (Hreg1 k a' H). }
    destruct (bool_decide _); simpl;
      [apply (Hdel (stop m)), timing_inv_stop|apply (Hdel m)]; exact Hinv.
  - pose proof (timing_inv_stop m Hinv) as (_ & Hrest).
    split; [|exact Hrest]. simpl. intros k a' H.
    rewrite lookup_empty in H. discriminate.
Qed.

Lemma timing_inv_run ops : forall m,
  Forall sane_op ops -> timing_inv m -> timing_inv (run ops m).
Proof.
  induction ops as [|o ops IH]; intros m Hops Hm; [exact Hm|].
  inversion Hops; subst. simpl. apply IH; [assumption|].
  apply timing_inv_step; assumption.
Qed.

(** X1.  Whatever sequence of operations a fresh manager goes through
    (clips from the constructor, time steps not negative), the frame index
    is never negative and, while a clip is active, it is a valid position
    in that clip's frame list; the timer stays inside [[0, frame_duration)]. *)
Theorem X1_index_in_range (ops : list op) :
  Forall sane_op ops ->
  let m := run ops init in
  (0 <= current_frame_index m)%Z /\ 0 <= frame_timer m /\
  forall a, current_animation m = Some a ->
    (current_frame_index m < len (frames a))%Z /\
    frame_timer m < frame_duration a.
Proof.
  intros Hops m.
  destruct (timing_inv_run ops init Hops timing_inv_init) as (_ & Hi & Ht & Hc).
  split; [exact Hi|]. split; [exact Ht|].
  intros a Ha. destruct (Hc a Ha) as (_ & H1 & H2). auto.
Qed.

Lemma sane_jump_to_end : Forall sane_op Fixtures.jump_to_end.
Proof.
  unfold Fixtures.jump_to_end. repeat constructor; try discriminate.
Qed.

Lemma X1_index_in_range_witness :
  (0 <= current_frame_index (run Fixtures.jump_to_end init))%Z /\
  0 <= frame_timer (run Fixtures.jump_to_end init) /\
  forall a, current_animation (run Fixtures.jump_to_end init) = Some a ->
    (current_frame_index (run Fixtures.jump_to_end init) < len (frames a))%Z /\
    frame_timer (run Fixtures.jump_to_end init) < frame_duration a.
Proof.
  apply (X1_index_in_range Fixtures.jump_to_end).
  unfold Fixtures.jump_to_end. repeat constructor; try discriminate.
Defined.

(** ** Progress *)

Lemma finished_rest_step m o : finished_rest m -> finished_rest (step m o).
Proof.
  unfold finished_rest. intros IH.
  destruct o as [a|now n restart| | | |dt|n|]; simpl.
  - exact IH.
  - unfold play_animation. destruct (animations m !! n); [|exact IH].
    destruct (bool_decide _ && _ && _ && _); [exact IH|]. simpl. discriminate.
  - discriminate.
  - unfold pause. destruct (is_playing m) eqn:Hp; [|rewrite Hp; exact IH].
    simpl. intros Hf. destruct (IH Hf) as [H _]. discriminate.
  - unfold resume. destruct (is_playing m) eqn:Hp; simpl;
      [|rewrite Hp; exact IH].
    destruct (is_paused m); simpl; [|rewrite Hp; exact IH].
    intros Hf. destruct (IH Hf) as [H _]. discriminate.
  - unfold update. destruct (is_playing m) eqn:Hp; simpl;
      [|rewrite Hp; exact IH].
    assert (Hnf : finished m = false).
    { destruct (finished m); [|reflexivity]. destruct IH; [reflexivity|].
      discriminate. }
    rewrite Hnf. destruct (is_paused m); simpl; [congruence|].
    destruct (current_animation m) as [a|]; [|congruence].
    destruct (Qle_bool _ _); [|simpl; congruence].
    destruct (len (frames a) <=? current_frame_index m + 1)%Z;
      [destruct (loop a)|]; simpl; try congruence. auto.
  - unfold remove_animation. destruct (animations m !! n); [|exact IH].
    destruct (bool_decide _); simpl; [discriminate|exact IH].
  - discriminate.
Qed.

(** The three invariants together, along any run of sane operations. *)
Lemma invariants_run ops : forall m,
  Forall sane_op ops ->
  timing_inv m /\ finished_inv m /\ finished_rest m ->
  timing_inv (run ops m) /\ finished_inv (run ops m) /\ finished_rest (run ops m).
Proof.
  induction ops as [|o ops IH]; intros m Hops Hm; [exact Hm|].
  inversion Hops as [|o' ops' Ho Hrest]; subst. simpl. apply IH; [assumption|].
  destruct Hm as (I1 & I2 & I3). split; [|split].
  - apply timing_inv_step; assumption.
  - apply AnimProofs.finished_inv_step; assumption.
  - apply finished_rest_step; assumption.
Qed.

Lemma invariants_init :
  timing_inv init /\ finished_inv init /\ finished_rest init.
Proof.
  split; [apply timing_inv_init|]. split; intros H; discriminate H.
Qed.

Lemma time_div_ok x y : 0 < y -> time_div x y = Ok (x / y).
Proof.
  intros Hy. unfold time_div.
  destruct (Qeq_bool y 0) eqn:E; [|reflexivity].
  apply Qeq_bool_iff in E. rewrite E in Hy. discriminate Hy.
Qed.

(** The progress value of a state that satisfies the timing invariant. *)
Lemma progress_value m a :
  timing_inv m -> current_animation m = Some a ->
  let p := (inject_Z (current_frame_index m) + frame_timer m / frame_duration a)
           / inject_Z (len (frames a)) in
  get_animation_progress m = Ok p /\ 0 <= p /\ p < 1.
Proof.
  intros (_ & Hi & Ht & Hc) Ha. destruct (Hc a Ha) as ((Hne & Hfd) & Hlt & Htl).
  set (w := frame_timer m / frame_duration a).
  assert (Hw0 : 0 <= w).
  { unfold w. apply Qle_shift_div_l; [exact Hfd|]. rewrite Qmult_0_l. exact Ht. }
  assert (Hw1 : w < 1).
  { unfold w. apply Qlt_shift_div_r; [exact Hfd|]. rewrite Qmult_1_l. exact Htl. }
  assert (Hlen : 0 < inject_Z (len (frames a))).
  { rewrite <- (Zlt_Qlt 0). apply len_pos. exact Hne. }
  assert (Hidx : inject_Z (current_frame_index m) + 1
                 <= inject_Z (len (frames a))).
  { rewrite <- (inject_Z_plus _ 1). rewrite <- Zle_Qle. lia. }
  assert (Hidx0 : 0 <= inject_Z (current_frame_index m)).
  { rewrite <- (Zle_Qle 0). exact Hi. }
  intros p.
  assert (Hp0 : 0 <= p).
  { unfold p. apply Qle_shift_div_l; [exact Hlen|]. rewrite Qmult_0_l.
    fold w. apply Qle_trans with (0 + 0); [apply Qle_refl|].
    apply Qplus_le_compat; assumption. }
  assert (Hp1 : p < 1).
  { unfold p. apply Qlt_shift_div_r; [exact Hlen|]. rewrite Qmult_1_l. fold w.
    apply Qlt_le_trans with (inject_Z (current_frame_index m) + 1);
      [|exact Hidx].
    apply Qplus_lt_r. exact Hw1. }
  split; [|split; assumption].
  unfold get_animation_progress. rewrite Ha.
  destruct (frames a) as [|f fs] eqn:Hfs; [congruence|].
  rewrite (time_div_ok _ _ Hfd). cbn [bind]. fold w. fold p.
  destruct (Qle_bool 1 p) eqn:E; [|reflexivity].
  apply Qle_bool_iff in E. exfalso. apply (Qlt_not_le _ _ Hp1 E).
Qed.

(** X2.  In every state with [finished] set that a fresh manager
    reaches through sane operations, [get_animation_progress] returns
    (N-1)/N for the N frames of the active clip: the timer rests at zero
    and the index on the last frame.  So the progress of a finished clip
    stays below 1, and is 0 for a clip of one frame. *)
Theorem X2_progress_of_finished_clip (ops : list op) :
  Forall sane_op ops ->
  let m := run ops init in
  finished m = true ->
  exists a p,
    current_animation m = Some a /\
    get_animation_progress m = Ok p /\
    p == inject_Z (len (frames a) - 1) / inject_Z (len (frames a)) /\
    0 <= p /\ p < 1.
Proof.
  intros Hops m Hfin.
  destruct (invariants_run ops init Hops invariants_init) as (Ht & Hf & Hr).
  fold m in Ht, Hf, Hr.
  destruct (Hf Hfin) as (a & Ha & _ & Hidx).
  destruct (progress_value m a Ht Ha) as (Hp & Hp0 & Hp1).
  destruct (Hr Hfin) as [_ Htimer].
  exists a. eexists. split; [exact Ha|]. split; [exact Hp|].
  split; [|split; assumption].
  rewrite Hidx, Htimer. unfold Qdiv at 2. rewrite Qmult_0_l, Qplus_0_r.
  reflexivity.
Qed.

Lemma X2_progress_of_finished_clip_witness :
  exists a p,
    current_animation (run Fixtures.jump_to_end init) = Some a /\
    get_animation_progress (run Fixtures.jump_to_end init) = Ok p /\
    p == inject_Z (len (frames a) - 1) / inject_Z (len (frames a)) /\
    0 <= p /\ p < 1.
Proof.
  apply (X2_progress_of_finished_clip Fixtures.jump_to_end).
  - unfold Fixtures.jump_to_end. repeat constructor; try discriminate.
  - reflexivity.
Defined.

Example progress_of_finished_jump :
  get_animation_progress (run Fixtures.jump_to_end init) = Ok (2 # 3).
Proof. reflexivity. Qed.

(** ** Pausing *)

Lemma update_n_fixed k m dt : update m dt = m -> update_n k m dt = m.
Proof.
  intros H. induction k as [|k IH]; [reflexivity|]. simpl. rewrite H. exact IH.
Qed.

(** X4.  Pausing freezes a playing manager: any number of updates of the
    paused manager change nothing, and [resume] then gives back exactly
    the state before [pause]. *)
Theorem X4_pause_resume_round_trip (m : AnimationManager) (k : nat) (dt : Q) :
  is_playing m = true -> is_paused m = false ->
  update_n k (pause m) dt = pause m /\
  resume (update_n k (pause m) dt) = m.
Proof.
  intros Hp Hq.
  assert (Hfix : update_n k (pause m) dt = pause m).
  { apply update_n_fixed. unfold pause. rewrite Hp. unfold update. simpl.
    reflexivity. }
  split; [exact Hfix|]. rewrite Hfix. unfold pause, resume. rewrite Hp. simpl.
  destruct m; simpl in *. subst. reflexivity.
Qed.

Lemma X4_pause_resume_round_trip_witness :
  update_n 5 (pause Fixtures.walk_started) (1 / 8) = pause Fixtures.walk_started /\
  resume (update_n 5 (pause Fixtures.walk_started) (1 / 8)) = Fixtures.walk_started.
Proof.
  apply (X4_pause_resume_round_trip Fixtures.walk_started 5 (1 / 8));
    reflexivity.
Defined.

(** ** Looping clips *)

Lemma update_keeps_clip m dt : current_animation (update m dt) = current_animation m.
Proof.
  unfold update. destruct (negb (is_playing m) || is_paused m); [reflexivity|].
  destruct (current_animation m) as [a|] eqn:Hc; [|exact Hc].
  destruct (finished m && negb (loop a)); [exact Hc|].
  destruct (Qle_bool _ _); [|exact Hc].
  destruct (len (frames a) <=? current_frame_index m + 1)%Z;
    [destruct (loop a)|]; exact Hc.
Qed.

Lemma update_looping m a dt :
  current_animation m = Some a -> loop a = true ->
  finished (update m dt) = finished m /\
  is_playing (update m dt) = is_playing m /\
  is_paused (update m dt) = is_paused m.
Proof.
  intros Hc Hl. unfold update.
  destruct (negb (is_playing m) || is_paused m); [auto|].
  rewrite Hc, Hl. rewrite andb_false_r.
  destruct (Qle_bool _ _); [|auto].
  destruct (len (frames a) <=? current_frame_index m + 1)%Z; auto.
Qed.

(** X5.  A looping clip never finishes: however many updates follow and
    whatever the time steps are, [finished] stays false and the playing
    and paused flags stay as they were.  A loop that waits for
    [is_finished()] on such a clip does not end. *)
Theorem X5_looping_never_finishes (m : AnimationManager) (a : Animation)
    (dts : list Q) :
  current_animation m = Some a -> loop a = true -> finished m = false ->
  let m' := run (map OpUpdate dts) m in
  finished m' = false /\ is_playing m' = is_playing m /\
  is_paused m' = is_paused m /\ current_animation m' = Some a.
Proof.
  revert m. induction dts as [|dt dts IH]; intros m Hc Hl Hf; simpl; [auto|].
  destruct (update_looping m a dt Hc Hl) as (E1 & E2 & E3).
  destruct (IH (update m dt)) as (F1 & F2 & F3 & F4).
  - rewrite update_keeps_clip. exact Hc.
  - exact Hl.
  - rewrite E1. exact Hf.
  - rewrite F2, F3, E2, E3. auto.
Qed.

Lemma X5_looping_never_finishes_witness :
  finished (run (map OpUpdate [1 / 8; 3; 1 / 100]) Fixtures.walk_started) = false /\
  is_playing (run (map OpUpdate [1 / 8; 3; 1 / 100]) Fixtures.walk_started)
    = is_playing Fixtures.walk_started /\
  is_paused (run (map OpUpdate [1 / 8; 3; 1 / 100]) Fixtures.walk_started)
    = is_paused Fixtures.walk_started /\
  current_animation (run (map OpUpdate [1 / 8; 3; 1 / 100]) Fixtures.walk_started)
    = Some Fixtures.walk_clip.
Proof.
  apply (X5_looping_never_finishes Fixtures.walk_started Fixtures.walk_clip
           [1 / 8; 3; 1 / 100]); reflexivity.
Defined.

(** ** Non-looping clips *)

(** With a time step of at least one frame duration every update moves
    to the next frame, as long as there is one. *)
Lemma update_n_steady a dt k : forall m,
  current_animation m = Some a ->
  is_playing m = true -> is_paused m = false -> finished m = false ->
  0 <= frame_timer m -> frame_duration a <= dt ->
  (current_frame_index m + Z.of_nat k < len (frames a))%Z ->
  let m' := update_n k m dt in
  current_animation m' = Some a /\
  is_playing m' = true /\ is_paused m' = false /\ finished m' = false /\
  0 <= frame_timer m' /\
  current_frame_index m' = (current_frame_index m + Z.of_nat k)%Z.
Proof.
  induction k as [|k IH]; intros m Hc Hp Hq Hf Ht Hd Hk; simpl.
  - repeat split; try assumption. lia.
  - assert (Hdue : frame_duration a <= frame_timer m + dt) by lra.
    rewrite (AnimProofs.update_due m a _ Hc Hp Hq Hf Hdue). cbv zeta.
    destruct (len (frames a) <=? current_frame_index m + 1)%Z eqn:E.
    { apply Z.leb_le in E. lia. }
    specialize (IH (with_playback m (current_frame_index m + 1)%Z 0 true false)).
    simpl in IH.
    destruct IH as (H1 & H2 & H3 & H4 & H5 & H6);
      try assumption; try reflexivity; try lia; try apply Qle_refl.
    repeat split; try assumption. rewrite H6. lia.
Qed.

(** X6.  A playing, unpaused, unfinished non-looping clip that is
    updated with a time step of at least one frame duration moves one
    frame per update and finishes with the update after its last frame:
    from index [i] and a timer that is not negative, the index after
    [k] updates is [i + k] and the clip still plays while [k < N - i];
    the update number [N - i] sets [finished], clears [is_playing] and
    leaves the index on the last frame. *)
Theorem X6_non_looping_finishes (m : AnimationManager) (a : Animation) (dt : Q) :
  current_animation m = Some a -> loop a = false ->
  is_playing m = true -> is_paused m = false -> finished m = false ->
  (0 <= current_frame_index m < len (frames a))%Z ->
  0 <= frame_timer m -> frame_duration a <= dt ->
  let n := Z.to_nat (len (frames a) - current_frame_index m) in
  (forall k : nat, (k < n)%nat ->
     current_frame_index (update_n k m dt)
       = (current_frame_index m + Z.of_nat k)%Z /\
     finished (update_n k m dt) = false /\
     is_playing (update_n k m dt) = true) /\
  finished (update_n n m dt) = true /\
  is_playing (update_n n m dt) = false /\
  current_frame_index (update_n n m dt) = (len (frames a) - 1)%Z.
Proof.
  intros Hc Hl Hp Hq Hf Hi Ht Hd n.
  assert (Hin : forall k : nat, (k < n)%nat ->
            let mk := update_n k m dt in
            current_animation mk = Some a /\
            is_playing mk = true /\ is_paused mk = false /\
            finished mk = false /\ 0 <= frame_timer mk /\
            current_frame_index mk = (current_frame_index m + Z.of_nat k)%Z).
  { intros k Hk. apply update_n_steady; try assumption. unfold n in Hk. lia. }
  split.
  { intros k Hk. destruct (Hin k Hk) as (_ & H2 & _ & H4 & _ & H6). auto. }
  destruct n as [|k] eqn:Hn; [unfold n in Hn; lia|].
  destruct (Hin k ltac:(lia)) as (H1 & H2 & H3 & H4 & H5 & H6).
  cbv zeta in H1, H2, H3, H4, H5, H6.
  rewrite AnimProofs.update_n_snoc.
  assert (Hdue : frame_duration a <= frame_timer (update_n k m dt) + dt) by lra.
  rewrite (AnimProofs.update_due _ a _ H1 H2 H3 H4 Hdue). cbv zeta.
  rewrite H6, Hl.
  replace (len (frames a) <=? current_frame_index m + Z.of_nat k + 1)%Z
    with true.
  2:{ symmetry. apply Z.leb_le. unfold n in Hn. lia. }
  simpl. auto.
Qed.

Lemma X6_non_looping_finishes_witness :
  (forall k : nat, (k < 3)%nat ->
     current_frame_index (update_n k Fixtures.jump_started 0.35)
       = (0 + Z.of_nat k)%Z /\
     finished (update_n k Fixtures.jump_started 0.35) = false /\
     is_playing (update_n k Fixtures.jump_started 0.35) = true) /\
  finished (update_n 3 Fixtures.jump_started 0.35) = true /\
  is_playing (update_n 3 Fixtures.jump_started 0.35) = false /\
  current_frame_index (update_n 3 Fixtures.jump_started 0.35) = (3 - 1)%Z.
Proof.
  apply (X6_non_looping_finishes Fixtures.jump_started Fixtures.jump_clip 0.35);
    try reflexivity.
  - split; [apply Z.leb_le|apply Z.ltb_lt]; reflexivity.
  - vm_compute. discriminate.
  - vm_compute. discriminate.
Defined.

(** ** The registry *)

(** X7.  Removing a registered name returns [True]; afterwards the name
    is unknown, playing it fails without changing anything, and every
    other name is still registered as before.  The active clip reference
    is kept even when it is the removed clip, but if the removed name was
    the active one playback is stopped and further updates do nothing. *)
Theorem X7_remove_animation (m : AnimationManager) (n : string)
    (a : Animation) (now dt : Q) (restart : bool) :
  animations m !! n = Some a ->
  let r := remove_animation m n in
  fst r = true /\
  has_animation (snd r) n = false /\
  play_animation (snd r) now n restart = (false, snd r) /\
  (forall n', n' <> n -> animations (snd r) !! n' = animations m !! n') /\
  current_animation (snd r) = current_animation m /\
  (current_animation_name m = Some n ->
   is_playing (snd r) = false /\ update (snd r) dt = snd r).
Proof.
  intros Ha. unfold remove_animation. rewrite Ha. cbv zeta.
  assert (Hdel : forall m1 : AnimationManager,
            delete n (animations m1) !! n = None).
  { intros m1. apply lookup_delete_eq. }
  split; [reflexivity|].
  destruct (bool_decide (current_animation_name m = Some n)) eqn:Hd; simpl.
  - split; [unfold has_animation; simpl; rewrite Hdel; reflexivity|].
    split; [unfold play_animation; simpl; rewrite Hdel; reflexivity|].
    split; [intros n' Hn'; apply lookup_delete_ne; congruence|].
    split; [reflexivity|]. intros _. split; reflexivity.
  - split; [unfold has_animation; simpl; rewrite Hdel; reflexivity|].
    split; [unfold play_animation; simpl; rewrite Hdel; reflexivity|].
    split; [intros n' Hn'; apply lookup_delete_ne; congruence|].
    split; [reflexivity|]. intros Hn.
    apply bool_decide_eq_false_1 in Hd. contradiction.
Qed.

Lemma X7_remove_animation_witness :
  fst (remove_animation Fixtures.walk_started "walk") = true /\
  has_animation (snd (remove_animation Fixtures.walk_started "walk")) "walk"
    = false /\
  play_animation (snd (remove_animation Fixtures.walk_started "walk")) 1 "walk" true
    = (false, snd (remove_animation Fixtures.walk_started "walk")) /\
  (forall n', n' <> "walk" ->
     animations (snd (remove_animation Fixtures.walk_started "walk")) !! n'
     = animations Fixtures.walk_started !! n') /\
  current_animation (snd (remove_animation Fixtures.walk_started "walk"))
    = current_animation Fixtures.walk_started /\
  (current_animation_name Fixtures.walk_started = Some "walk" ->
   is_playing (snd (remove_animation Fixtures.walk_started "walk")) = false /\
   update (snd (remove_animation Fixtures.walk_started "walk")) (1 / 8)
     = snd (remove_animation Fixtures.walk_started "walk")).
Proof.
  apply (X7_remove_animation Fixtures.walk_started "walk" Fixtures.walk_clip
           1 (1 / 8) true).
  vm_compute. reflexivity.
Defined.

(** X8.  Registering a clip under the name that is playing replaces the
    registry entry only: the manager goes on with the old clip object,
    [play_animation] without [restart] is still a no-op, and the new clip
    is taken up by a call with [restart]. *)
Theorem X8_reregister_while_playing (m : AnimationManager) (a' : Animation)
    (now : Q) :
  current_animation_name m = Some (name a') ->
  is_playing m = true -> finished m = false ->
  let m' := add_animation m a' in
  current_animation m' = current_animation m /\
  current_frame_index m' = current_frame_index m /\
  play_animation m' now (name a') false = (true, m') /\
  current_animation (snd (play_animation m' now (name a') true)) = Some a'.
Proof.
  intros Hn Hp Hf m'. split; [reflexivity|]. split; [reflexivity|].
  unfold play_animation, m', add_animation. simpl.
  rewrite lookup_insert_eq, Hp, Hf.
  rewrite bool_decide_eq_true_2 by exact Hn. simpl. auto.
Qed.

Lemma X8_reregister_while_playing_witness :
  current_animation (add_animation Fixtures.jump_started Fixtures.jump_clip_fast)
    = current_animation Fixtures.jump_started /\
  current_frame_index (add_animation Fixtures.jump_started Fixtures.jump_clip_fast)
    = current_frame_index Fixtures.jump_started /\
  play_animation (add_animation Fixtures.jump_started Fixtures.jump_clip_fast) 2
                 (name Fixtures.jump_clip_fast) false
    = (true, add_animation Fixtures.jump_started Fixtures.jump_clip_fast) /\
  current_animation
    (snd (play_animation
            (add_animation Fixtures.jump_started Fixtures.jump_clip_fast)
            2 (name Fixtures.jump_clip_fast) true))
    = Some Fixtures.jump_clip_fast.
Proof.
  apply (X8_reregister_while_playing Fixtures.jump_started
           Fixtures.jump_clip_fast 2); reflexivity.
Defined.

End AnimExtra.

(** * Further properties of the sprite *)

Module SpriteExtra.

Import Sprite.
Import SpriteProofs.
Import OverflowProofs.
Open Scope R_scope.

(** ** Sprites built through the setters *)

Lemma float_mod360_range x : 0 <= float_mod360 x < 360.
Proof.
  unfold float_mod360. destruct (base_Int_part (x / 360)) as [H1 H2].
  assert (E : x = 360 * (x / 360)) by (field).
  split; lra.
Qed.

Lemma api_inv_new fsize position nframes :
  api_inv (new_AnimatedSprite fsize position nframes).
Proof.
  unfold api_inv, well_formed. simpl. split; [discriminate|]. lra.
Qed.

Lemma api_inv_step s o : api_inv s -> api_inv (apply_op s o).
Proof.
  intros (Hw & Hs & Hr). unfold api_inv, well_formed in *.
  destruct o; simpl; try (split; [exact Hw|split; [exact Hs|exact Hr]]).
  - split; [exact Hw|]. split; [exact Hs|].
    pose proof (float_mod360_range angle). lra.
  - split; [exact Hw|]. split; [exact Hs|].
    pose proof (float_mod360_range (rotation s + angle)). lra.
  - split; [exact Hw|]. split; [apply Rmax_l|exact Hr].
  - split; [discriminate|]. split; [exact Hs|exact Hr].
  - split; [eauto|]. split; [exact Hs|exact Hr].
  - split; [discriminate|]. split; [exact Hs|exact Hr].
Qed.

Lemma api_inv_build fsize position nframes ops :
  api_inv (build fsize position nframes ops).
Proof.
  unfold build. generalize (api_inv_new fsize position nframes).
  generalize (new_AnimatedSprite fsize position nframes).
  induction ops as [|o ops IH]; intros s Hs; [exact Hs|].
  simpl. apply IH. apply api_inv_step. exact Hs.
Qed.

(** X9.  Whatever setters (position, move, rotation, scale, mirror and
    the three hitbox setters) are applied in whatever order to a fresh
    sprite, the scale is at least 0.1, the rotation lies between 0 and
    360 (the remainder [% 360] is never negative and never above 360),
    and a circle hitbox has its radius, so the hitbox configuration is
    well formed. *)
Theorem X9_setters_keep_sprites_well_formed (fsize position : Z * Z)
    (nframes : Z) (ops : list sprite_op) :
  let s := build fsize position nframes ops in
  1 / 10 <= scale s /\ 0 <= rotation s <= 360 /\ well_formed s.
Proof.
  intros s. destruct (api_inv_build fsize position nframes ops) as (W & S & Rt).
  split; [exact S|]. split; [exact Rt|exact W].
Qed.

(** A sprite that went through every setter. *)
Example setters_applied :
  let s := build (64, 64)%Z (0, 0)%Z 4
             [SetCollisionCircle 12 0 0; SetScale (1 / 100); SetRotation 400;
              ResetCollision; SetCollisionRect 10 20 1 1; Move 3 4;
              Rotate (-50); Mirror true; SetPosition 7 8;
              SetCollisionCircle 5 2 2] in
  scale s = 1 / 10 /\ rotation s = 350 /\ hitbox_radius s = Some 5 /\
  hitbox_shape s = Circle /\ _position s = (7, 8).
Proof.
  cbn. split; [apply Rmax_left; lra|].
  split; [|auto].
  unfold float_mod360.
  assert (E1 : Int_part (400 / 360) = 1%Z).
  { symmetry. apply Int_part_spec. simpl. lra. }
  rewrite E1.
  match goal with
  | |- context [Int_part ?e] =>
      assert (E2 : Int_part e = (-1)%Z)
        by (symmetry; apply Int_part_spec; lra)
  end.
  rewrite E2. lra.
Qed.

(** ** Unrotated rectangles *)

Lemma scaled_ranges_overlap k la lb min_a max_a min_b max_b :
  k <> 0 ->
  py_min la = Ok min_a -> py_max la = Ok max_a ->
  py_min lb = Ok min_b -> py_max lb = Ok max_b ->
  min_a <= max_b -> min_b <= max_a ->
  exists min_a' max_a' min_b' max_b',
    py_min (scaled k la) = Ok min_a' /\ py_max (scaled k la) = Ok max_a' /\
    py_min (scaled k lb) = Ok min_b' /\ py_max (scaled k lb) = Ok max_b' /\
    float_lt max_a' min_b' || float_lt max_b' min_a' = false.
Proof.
  intros Hk Ha1 Ha2 Hb1 Hb2 H1 H2.
  destruct la as [|a la]; [discriminate|].
  destruct lb as [|b lb]; [discriminate|].
  simpl in Ha1, Ha2, Hb1, Hb2.
  injection Ha1 as <-. injection Ha2 as <-.
  injection Hb1 as <-. injection Hb2 as <-.
  unfold scaled. simpl.
  destruct (Rlt_dec 0 k) as [Hpos|Hnpos].
  - rewrite !(fold_left_morph (fun v => v * k) Rmin Rmin)
      by (intros; apply Rmin_scale_pos; exact Hpos).
    rewrite !(fold_left_morph (fun v => v * k) Rmax Rmax)
      by (intros; apply Rmax_scale_pos; exact Hpos).
    do 4 eexists. repeat (split; [reflexivity|]).
    apply orb_false_iff. rewrite !float_lt_false. split; nra.
  - assert (Hneg : k < 0) by lra.
    rewrite !(fold_left_morph (fun v => v * k) Rmin Rmax)
      by (intros; apply Rmin_scale_neg; exact Hneg).
    rewrite !(fold_left_morph (fun v => v * k) Rmax Rmin)
      by (intros; apply Rmax_scale_neg; exact Hneg).
    do 4 eexists. repeat (split; [reflexivity|]).
    apply orb_false_iff. rewrite !float_lt_false. split; nra.
Qed.

(** A vertical edge does not separate polygons whose x ranges overlap. *)
Lemma sat_edge_vertical_overlap x y1 y2 ca cb min_a max_a min_b max_b :
  y1 <> y2 ->
  py_min (xs ca) = Ok min_a -> py_max (xs ca) = Ok max_a ->
  py_min (xs cb) = Ok min_b -> py_max (xs cb) = Ok max_b ->
  min_a <= max_b -> min_b <= max_a ->
  sat_edge (x, y1) (x, y2) ca cb = Ok None.
Proof.
  intros Hy Ha1 Ha2 Hb1 Hb2 H1 H2.
  set (nx := - (y2 - y1)). set (ny := x - x).
  set (len := sqrt (nx ^ 2 + ny ^ 2)).
  assert (Hlen : 0 < len).
  { apply sqrt_lt_R0. unfold nx, ny. nra. }
  assert (Hk : nx / len <> 0).
  { unfold Rdiv. apply Rmult_integral_contrapositive. split.
    - unfold nx. lra.
    - apply Rinv_neq_0_compat. lra. }
  assert (Hn1 : ny / len = 0) by (unfold ny, Rdiv; ring).
  destruct (scaled_ranges_overlap _ _ _ _ _ _ _ Hk Ha1 Ha2 Hb1 Hb2 H1 H2)
    as (mna & mxa & mnb & mxb & E1 & E2 & E3 & E4 & Hsep).
  rewrite (sat_edge_unfold (x, y1) (x, y2) ca cb mna mxa mnb mxb).
  - cbn [fst snd]. fold nx ny len.
    rewrite (proj2 (float_eq_false len 0)) by lra. rewrite Hsep. reflexivity.
  - cbn [fst snd]. fold nx ny len. intros _.
    rewrite !(project_on_x _ _ _ Hn1). auto.
Qed.

(** A horizontal edge does not separate polygons whose y ranges overlap. *)
Lemma sat_edge_horizontal_overlap x1 x2 y ca cb min_a max_a min_b max_b :
  x1 <> x2 ->
  py_min (ys ca) = Ok min_a -> py_max (ys ca) = Ok max_a ->
  py_min (ys cb) = Ok min_b -> py_max (ys cb) = Ok max_b ->
  min_a <= max_b -> min_b <= max_a ->
  sat_edge (x1, y) (x2, y) ca cb = Ok None.
Proof.
  intros Hx Ha1 Ha2 Hb1 Hb2 H1 H2.
  set (nx := - (y - y)). set (ny := x2 - x1).
  set (len := sqrt (nx ^ 2 + ny ^ 2)).
  assert (Hlen : 0 < len).
  { apply sqrt_lt_R0. unfold nx, ny. nra. }
  assert (Hk : ny / len <> 0).
  { unfold Rdiv. apply Rmult_integral_contrapositive. split.
    - unfold ny. lra.
    - apply Rinv_neq_0_compat. lra. }
  assert (Hn0 : nx / len = 0) by (unfold nx, Rdiv; ring).
  destruct (scaled_ranges_overlap _ _ _ _ _ _ _ Hk Ha1 Ha2 Hb1 Hb2 H1 H2)
    as (mna & mxa & mnb & mxb & E1 & E2 & E3 & E4 & Hsep).
  rewrite (sat_edge_unfold (x1, y) (x2, y) ca cb mna mxa mnb mxb).
  - cbn [fst snd]. fold nx ny len.
    rewrite (proj2 (float_eq_false len 0)) by lra. rewrite Hsep. reflexivity.
  - cbn [fst snd]. fold nx ny len. intros _.
    rewrite !(project_on_y _ _ _ Hn0). auto.
Qed.

(** The inner loop over a polygon of four corners, edge by edge. *)
Lemma sat_edges_four (c0 c1 c2 c3 : point) ca cb :
  sat_edge c0 c1 ca cb = Ok None -> sat_edge c1 c2 ca cb = Ok None ->
  sat_edge c2 c3 ca cb = Ok None -> sat_edge c3 c0 ca cb = Ok None ->
  sat_edges (seq 0 4) [c0; c1; c2; c3] ca cb = Ok None.
Proof.
  intros E0 E1 E2 E3.
  change (sat_edges (seq 0 4) [c0; c1; c2; c3] ca cb) with
    (let* r := sat_edge c0 c1 ca cb in
     match r with
     | Some b => Ok (Some b)
     | None =>
         let* r := sat_edge c1 c2 ca cb in
         match r with
         | Some b => Ok (Some b)
         | None =>
             let* r := sat_edge c2 c3 ca cb in
             match r with
             | Some b => Ok (Some b)
             | None =>
                 let* r := sat_edge c3 c0 ca cb in
                 match r with
                 | Some b => Ok (Some b)
                 | None => Ok None
                 end
             end
         end
     end).
  rewrite E0. cbn [bind]. rewrite E1. cbn [bind]. rewrite E2. cbn [bind].
  rewrite E3. reflexivity.
Qed.

(** The coordinate ranges of an unrotated hitbox. *)
Lemma unrotated_ranges s :
  rotation s = 0 -> 0 <= fst (hitbox_size s) -> 0 <= snd (hitbox_size s) ->
  let cx := IZR (fst (hitbox_center s)) in
  let cy := IZR (snd (hitbox_center s)) in
  let hw := fst (hitbox_size s) / 2 in
  let hh := snd (hitbox_size s) / 2 in
  py_min (xs (_get_corners s)) = Ok (cx - hw) /\
  py_max (xs (_get_corners s)) = Ok (cx + hw) /\
  py_min (ys (_get_corners s)) = Ok (cy - hh) /\
  py_max (ys (_get_corners s)) = Ok (cy + hh).
Proof.
  intros Hr Hw Hh cx cy hw hh.
  rewrite (get_corners_unrotated s Hr). cbv zeta. fold cx cy hw hh.
  assert (Hw' : 0 <= hw) by (unfold hw; lra).
  assert (Hh' : 0 <= hh) by (unfold hh; lra).
  unfold xs, ys, py_min, py_max. cbn [map fst snd fold_left].
  repeat split; f_equal; unfold Rmin, Rmax;
    repeat (destruct (Rle_dec _ _)); lra.
Qed.

Lemma unrotated_no_separation s ca cb
    min_ax max_ax min_bx max_bx min_ay max_ay min_by max_by :
  rotation s = 0 -> 0 < fst (hitbox_size s) -> 0 < snd (hitbox_size s) ->
  py_min (xs ca) = Ok min_ax -> py_max (xs ca) = Ok max_ax ->
  py_min (xs cb) = Ok min_bx -> py_max (xs cb) = Ok max_bx ->
  py_min (ys ca) = Ok min_ay -> py_max (ys ca) = Ok max_ay ->
  py_min (ys cb) = Ok min_by -> py_max (ys cb) = Ok max_by ->
  min_ax <= max_bx -> min_bx <= max_ax ->
  min_ay <= max_by -> min_by <= max_ay ->
  sat_edges (seq 0 (length (_get_corners s))) (_get_corners s) ca cb = Ok None.
Proof.
  intros Hr Hw Hh X1 X2 X3 X4 Y1 Y2 Y3 Y4 Ox1 Ox2 Oy1 Oy2.
  rewrite (get_corners_unrotated s Hr). cbv zeta.
  apply sat_edges_four.
  - eapply sat_edge_horizontal_overlap; eauto. lra.
  - eapply sat_edge_vertical_overlap; eauto. lra.
  - eapply sat_edge_horizontal_overlap; eauto. lra.
  - eapply sat_edge_vertical_overlap; eauto. lra.
Qed.

Lemma unrotated_overlap_test (a b : AnimatedSprite) :
  hitbox_shape a = Rect -> hitbox_shape b = Rect ->
  rotation a = 0 -> rotation b = 0 ->
  0 < fst (hitbox_size a) -> 0 < snd (hitbox_size a) ->
  0 < fst (hitbox_size b) -> 0 < snd (hitbox_size b) ->
  collides_with a b =
    Ok (float_le (Rabs (IZR (fst (hitbox_center a)) - IZR (fst (hitbox_center b))))
                 (fst (hitbox_size a) / 2 + fst (hitbox_size b) / 2)
        && float_le (Rabs (IZR (snd (hitbox_center a)) - IZR (snd (hitbox_center b))))
                    (snd (hitbox_size a) / 2 + snd (hitbox_size b) / 2)).
Proof.
  intros Sa Sb Ra Rb Wa Ha Wb Hb.
  unfold collides_with. rewrite Sa, Sb. cbn [is_circle andb orb].
  unfold _check_precise_rect_collision.
  destruct (unrotated_ranges a Ra (Rlt_le _ _ Wa) (Rlt_le _ _ Ha))
    as (Ax1 & Ax2 & Ay1 & Ay2).
  destruct (unrotated_ranges b Rb (Rlt_le _ _ Wb) (Rlt_le _ _ Hb))
    as (Bx1 & Bx2 & By1 & By2).
  pose proof (get_corners_nonempty a) as Na.
  pose proof (get_corners_nonempty b) as Nb.
  set (cxa := IZR (fst (hitbox_center a))) in *.
  set (cya := IZR (snd (hitbox_center a))) in *.
  set (cxb := IZR (fst (hitbox_center b))) in *.
  set (cyb := IZR (snd (hitbox_center b))) in *.
  set (hwa := fst (hitbox_size a) / 2) in *.
  set (hha := snd (hitbox_size a) / 2) in *.
  set (hwb := fst (hitbox_size b) / 2) in *.
  set (hhb := snd (hitbox_size b) / 2) in *.
  destruct (float_le (Rabs (cxa - cxb)) (hwa + hwb)) eqn:Ex.
  - destruct (float_le (Rabs (cya - cyb)) (hha + hhb)) eqn:Ey.
    + apply float_le_true in Ex, Ey.
      assert (Ox : cxa - hwa <= cxb + hwb /\ cxb - hwb <= cxa + hwa).
      { revert Ex. unfold Rabs. destruct (Rcase_abs _); lra. }
      assert (Oy : cya - hha <= cyb + hhb /\ cyb - hhb <= cya + hha).
      { revert Ey. unfold Rabs. destruct (Rcase_abs _); lra. }
      unfold _separating_axis_test. cbn [sat_polygons andb].
      rewrite (unrotated_no_separation a _ _ _ _ _ _ _ _ _ _ Ra Wa Ha
                 Ax1 Ax2 Bx1 Bx2 Ay1 Ay2 By1 By2
                 (proj1 Ox) (proj2 Ox) (proj1 Oy) (proj2 Oy)).
      cbn [bind].
      rewrite (unrotated_no_separation b _ _ _ _ _ _ _ _ _ _ Rb Wb Hb
                 Ax1 Ax2 Bx1 Bx2 Ay1 Ay2 By1 By2
                 (proj1 Ox) (proj2 Ox) (proj1 Oy) (proj2 Oy)).
      reflexivity.
    + apply float_le_false in Ey. cbn [andb].
      apply sat_false_left. apply unrotated_tests_y; try assumption; [lra|].
      exists (cya - hha), (cya + hha), (cyb - hhb), (cyb + hhb).
      repeat (split; [assumption|]).
      revert Ey. unfold Rabs. destruct (Rcase_abs _); lra.
  - apply float_le_false in Ex. cbn [andb].
    apply sat_false_left. apply unrotated_tests_x; try assumption; [lra|].
    exists (cxa - hwa), (cxa + hwa), (cxb - hwb), (cxb + hwb).
    repeat (split; [assumption|]).
    revert Ex. unfold Rabs. destruct (Rcase_abs _); lra.
Qed.


Ltac fixture_geometry :=
  unfold hitbox_center, hitbox_size; cbn; rewrite ?py_int_IZR, ?Z.add_0_r.


(** Two 64x64 sprites 60 pixels apart overlap by 4 pixels and collide. *)
Example boxes_overlapping :
  collides_with Fixtures.box_a Fixtures.box_c = Ok true.
Proof.
  rewrite (unrotated_overlap_test Fixtures.box_a Fixtures.box_c)
    by (try reflexivity; cbn; lra).
  fixture_geometry.
  rewrite (proj2 (float_le_true _ _)), (proj2 (float_le_true _ _));
    [reflexivity| |]; unfold Rabs; destruct (Rcase_abs _); lra.
Qed.

(** ** Circles *)




(** ** Distances *)

Lemma math_sqrt_nonneg x d : math_sqrt x = Ok d -> 0 <= d.
Proof.
  unfold math_sqrt. destruct (float_lt x 0); [discriminate|].
  intros H. injection H as <-. apply sqrt_pos.
Qed.

Lemma distance_to_nonneg (a : AnimatedSprite) other d :
  distance_to a other = Ok d -> 0 <= d.
Proof.
  unfold distance_to. destruct other as [o|pt].
  - intros H. apply math_sqrt_int_refines in H.
    exact (math_sqrt_nonneg _ _ H).
  - destruct (float_pow2 _) as [dx2|e]; [|discriminate]. cbn [bind].
    destruct (float_pow2 _) as [dy2|e]; [|discriminate]. cbn [bind].
    apply math_sqrt_nonneg.
Qed.

Lemma distance_to_sym (a b : AnimatedSprite) :
  distance_to a (inl b) = distance_to b (inl a).
Proof. unfold distance_to. cbn [fst snd]. f_equal. ring. Qed.

Lemma circles_by_distance (a b : AnimatedSprite) (ra rb : R) :
  hitbox_shape a = Circle -> hitbox_shape b = Circle ->
  hitbox_radius a = Some ra -> hitbox_radius b = Some rb ->
  collision_offset a = (0, 0)%Z -> collision_offset b = (0, 0)%Z ->
  Overflow.collides_with a b =
    let* d := distance_to a (inl b) in Ok (float_le d (ra + rb)).
Proof.
  intros Sa Sb Ha Hb Oa Ob.
  unfold Overflow.collides_with. rewrite Sa, Sb. cbn [is_circle andb].
  unfold Overflow._check_circle_collision, distance_to, radius_of,
    hitbox_center.
  rewrite Ha, Hb, Oa, Ob. cbn [fst snd]. rewrite !Z.add_0_r, !Z.pow_2_r.
  destruct (math_sqrt_int _); reflexivity.
Qed.

(** X12.  The distance between two sprites is the same call in both
    directions, with the same result or the same error; a distance that
    is returned is never negative; and for two circle hitboxes without
    offsets [collides_with] is [distance_to] followed by the comparison
    with the sum of the radii. *)
Theorem X12_distance_to_and_circles (a b : AnimatedSprite) :
  distance_to a (inl b) = distance_to b (inl a) /\
  (forall other d, distance_to a other = Ok d -> 0 <= d) /\
  (forall ra rb : R,
     hitbox_shape a = Circle -> hitbox_shape b = Circle ->
     hitbox_radius a = Some ra -> hitbox_radius b = Some rb ->
     collision_offset a = (0, 0)%Z -> collision_offset b = (0, 0)%Z ->
     Overflow.collides_with a b =
       let* d := distance_to a (inl b) in Ok (float_le d (ra + rb))).
Proof.
  split; [apply distance_to_sym|].
  split; [apply distance_to_nonneg|apply circles_by_distance].
Qed.

(** Two circles of radius 10 whose centres are 15 pixels apart: the
    distance is 15 and they collide.  At 1e160 pixels the squared
    distance no longer converts to a float. *)
Example distance_between_discs :
  distance_to (Fixtures.disc 0) (inl (Fixtures.disc 15)) = Ok 15 /\
  Overflow.collides_with (Fixtures.disc 0) (Fixtures.disc 15) = Ok true /\
  distance_to (Fixtures.disc 0) (inl (Fixtures.disc (10 ^ 160)))
  = Raise OverflowError.
Proof.
  assert (Hd : distance_to (Fixtures.disc 0) (inl (Fixtures.disc 15)) = Ok 15).
  { unfold distance_to.
    change (_position (Fixtures.disc 0)) with (IZR 0, IZR 0).
    change (_position (Fixtures.disc 15)) with (IZR 15, IZR 0).
    cbn [fst snd]. rewrite !py_int_IZR.
    rewrite math_sqrt_int_fits by (vm_compute; reflexivity).
    change ((15 - 0) ^ 2 + (0 - 0) ^ 2)%Z with (15 * 15)%Z.
    rewrite mult_IZR, math_sqrt_ok by lra. rewrite sqrt_square by lra.
    reflexivity. }
  split; [exact Hd|]. split.
  - rewrite (circles_by_distance (Fixtures.disc 0) (Fixtures.disc 15) 10 10)
      by reflexivity.
    rewrite Hd. cbn [bind]. rewrite (proj2 (float_le_true _ _)) by lra.
    reflexivity.
  - unfold distance_to.
    change (_position (Fixtures.disc 0)) with (IZR 0, IZR 0).
    change (_position (Fixtures.disc (10 ^ 160))) with (IZR (10 ^ 160), IZR 0).
    cbn [fst snd]. rewrite !py_int_IZR. unfold math_sqrt_int.
    match goal with
    | |- context [(float_overflow <=? ?n)%Z] =>
        replace (float_overflow <=? n)%Z with true
          by (vm_compute; reflexivity)
    end.
    reflexivity.
Qed.

(** ** Registering clips and the frame on show *)

Lemma filter_in_atlas s fs :
  Forall (fun f => (0 <= f < total_frames s)%Z) (List.filter (in_atlas s) fs).
Proof.
  induction fs as [|f fs IH]; simpl; [constructor|].
  destruct (in_atlas s f) eqn:E; [|exact IH].
  constructor; [|exact IH]. unfold in_atlas in E. lia.
Qed.

(** X13.  The sprite's [add_animation] keeps exactly the requested
    frames that are atlas indices, in their order.  If at least one is
    left and the rate is positive, the clip is registered under its name
    and nothing else about the sprite changes; otherwise the call raises
    [ValueError]. *)
Theorem X13_add_animation_filters_frames (s : AnimatedSprite) (n : string)
    (fs : list Z) (fps : Q) (lp : bool) :
  match add_animation s n fs fps lp with
  | Ok s' =>
      exists a,
        Anim.animations (animation_manager s') !! n = Some a /\
        Anim.frames a = List.filter (in_atlas s) fs /\
        Forall (fun f => (0 <= f < total_frames s)%Z) (Anim.frames a) /\
        Anim.frames a <> [] /\ (0 < fps)%Q /\
        Anim.loop a = lp /\
        s' = with_manager s (Anim.add_animation (animation_manager s) a)
  | Raise e =>
      e = ValueError /\
      (List.filter (in_atlas s) fs = [] \/ (fps <= 0)%Q)
  end.
Proof.
  unfold add_animation.
  destruct (Anim.new_Animation n (List.filter (in_atlas s) fs) fps lp)
    as [a|e] eqn:E; cbn [bind].
  - apply AnimProofs.new_Animation_inv in E. destruct E as (Hne & Hr & ->).
    eexists. split; [simpl; apply lookup_insert_eq|]. simpl.
    split; [reflexivity|]. split; [apply filter_in_atlas|]. auto.
  - unfold Anim.new_Animation in E.
    destruct (List.filter (in_atlas s) fs) as [|f l]; [injection E as <-; auto|].
    destruct (Qle_bool fps 0) eqn:Hq; [|discriminate]. injection E as <-.
    split; [reflexivity|]. right. apply Qle_bool_iff. exact Hq.
Qed.

(** X14.  The frame selection of [update] does not raise and keeps the
    frame on show an atlas index: when it was one before, the frame
    selected for the manager state [m] is one too; it is the active
    clip's frame at the manager's index whenever that frame is in the
    atlas, and the frame shown before when no clip is active. *)
Theorem X14_update_shows_a_valid_frame (s : AnimatedSprite)
    (m : Anim.AnimationManager) :
  frame_valid s ->
  exists frame,
    frame_to_show s m = Ok frame /\ (0 <= frame < total_frames s)%Z /\
    (forall a f, Anim.current_animation m = Some a ->
       (0 <= Anim.current_frame_index m)%Z ->
       nth_error (Anim.frames a) (Z.to_nat (Anim.current_frame_index m)) = Some f ->
       in_atlas s f = true -> frame = f) /\
    (Anim.current_animation m = None -> frame = current_frame s).
Proof.
  intros Hv. unfold frame_valid in Hv. unfold frame_to_show.
  destruct (Anim.current_animation m) as [a|] eqn:Ha.
  - cbv zeta.
    destruct ((0 <=? Anim.current_frame_index m)%Z
              && (Anim.current_frame_index m <? Anim.len (Anim.frames a))%Z)
      eqn:Hg.
    + destruct (index_in_range (Anim.frames a)
                  (Z.to_nat (Anim.current_frame_index m))) as [f Hf].
      { unfold Anim.len in Hg. lia. }
      rewrite Hf. cbn [bind]. eexists. split; [reflexivity|].
      split; [|split; [|discriminate]].
      * destruct (in_atlas s f) eqn:Hin; [|exact Hv].
        unfold in_atlas in Hin. lia.
      * intros a' f' Ha' Hi Hn Hin. injection Ha' as <-.
        unfold index in Hf. rewrite Hn in Hf. injection Hf as <-.
        rewrite Hin. reflexivity.
    + eexists. split; [reflexivity|]. split; [exact Hv|].
      split; [|discriminate].
      intros a' f' Ha' Hi Hn Hin. injection Ha' as <-. exfalso.
      assert (Hlt : (Z.to_nat (Anim.current_frame_index m)
                     < length (Anim.frames a))%nat).
      { apply nth_error_Some. congruence. }
      unfold Anim.len in Hg. lia.
  - eexists. split; [reflexivity|]. split; [exact Hv|].
    split; [discriminate|reflexivity].
Qed.

Lemma X14_update_shows_a_valid_frame_witness :
  exists frame,
    frame_to_show Fixtures.hero
      (Anim.update (animation_manager Fixtures.hero) (1 / 8)) = Ok frame /\
    (0 <= frame < total_frames Fixtures.hero)%Z /\
    (forall a f,
       Anim.current_animation
         (Anim.update (animation_manager Fixtures.hero) (1 / 8)) = Some a ->
       (0 <= Anim.current_frame_index
               (Anim.update (animation_manager Fixtures.hero) (1 / 8)))%Z ->
       nth_error (Anim.frames a)
         (Z.to_nat (Anim.current_frame_index
                      (Anim.update (animation_manager Fixtures.hero) (1 / 8))))
       = Some f ->
       in_atlas Fixtures.hero f = true -> frame = f) /\
    (Anim.current_animation
       (Anim.update (animation_manager Fixtures.hero) (1 / 8)) = None ->
     frame = current_frame Fixtures.hero).
Proof.
  apply (X14_update_shows_a_valid_frame Fixtures.hero
           (Anim.update (animation_manager Fixtures.hero) (1 / 8))).
  unfold frame_valid. simpl. lia.
Defined.

(** The sprite playing ["walk"] shows atlas frame 5 once the manager has
    moved to the second frame of the clip. *)
Example hero_second_frame :
  frame_to_show Fixtures.hero
    (Anim.update (animation_manager Fixtures.hero) (1 / 8)) = Ok 5%Z.
Proof. vm_compute. reflexivity. Qed.

(** ** Scaling *)

Lemma circle_edges_radius idx centre s1 s2 polygon :
  hitbox_radius s1 = hitbox_radius s2 ->
  circle_edges idx centre s1 polygon = circle_edges idx centre s2 polygon.
Proof.
  intros Hr. induction idx as [|i idx IH]; [reflexivity|]. simpl.
  unfold radius_of. rewrite Hr, IH. reflexivity.
Qed.

Lemma circle_rect_scaled_circle s other k :
  hitbox_shape s = Circle -> hitbox_shape other = Rect ->
  _check_circle_rect_collision (set_scale s k) other
  = _check_circle_rect_collision s other /\
  _check_circle_rect_collision other (set_scale s k)
  = _check_circle_rect_collision other s.
Proof.
  intros Hs Ho.
  assert (E : _check_circle_rect_collision (set_scale s k) other
              = _check_circle_rect_collision s other).
  { unfold _check_circle_rect_collision. simpl. rewrite Hs. cbn [is_circle].
    unfold _check_polygon_circle_collision, polygon_circle_test.
    rewrite (circle_edges_radius _ _ (set_scale s k) s) by reflexivity.
    reflexivity. }
  split; [exact E|].
  rewrite <- (circle_rect_sym (set_scale s k) other) by assumption.
  rewrite <- (circle_rect_sym s other) by assumption. exact E.
Qed.

(** X18.  A custom rectangle and a circle do not scale with the sprite:
    after [set_scale] such a sprite has the same corners and collides
    with every other sprite exactly as before, in both directions. *)
Theorem X18_scale_leaves_custom_hitboxes (s other : AnimatedSprite) (k : R) :
  hitbox_shape s = Circle \/ is_set (custom_hitbox_size s) = true ->
  (is_set (custom_hitbox_size s) = true ->
   _get_corners (set_scale s k) = _get_corners s) /\
  collides_with (set_scale s k) other = collides_with s other /\
  collides_with other (set_scale s k) = collides_with other s.
Proof.
  intros H.
  assert (Hcorners : is_set (custom_hitbox_size s) = true ->
                     _get_corners (set_scale s k) = _get_corners s).
  { intros Hc. unfold _get_corners, hitbox_size, hitbox_center. simpl.
    destruct (custom_hitbox_size s) as [[w h]|]; [reflexivity|discriminate]. }
  split; [exact Hcorners|].
  assert (Hrect : hitbox_shape s = Rect -> hitbox_shape other = Circle ->
            _check_circle_rect_collision other (set_scale s k)
            = _check_circle_rect_collision other s /\
            _check_circle_rect_collision (set_scale s k) other
            = _check_circle_rect_collision s other).
  { intros Hs Ho. destruct H as [H|H]; [congruence|].
    unfold _check_circle_rect_collision. simpl. rewrite Hs, Ho. simpl.
    unfold _check_polygon_circle_collision.
    rewrite (Hcorners H), H, !orb_true_r. split; reflexivity. }
  unfold collides_with. simpl.
  destruct (shape_cases s) as [Hs|Hs], (shape_cases other) as [Ho|Ho];
    rewrite Hs, Ho; cbn [is_circle andb orb].
  - split; reflexivity.
  - apply circle_rect_scaled_circle; assumption.
  - destruct (Hrect Hs Ho). split; assumption.
  - destruct H as [H|H]; [congruence|].
    unfold _check_precise_rect_collision. rewrite (Hcorners H).
    split; reflexivity.
Qed.

Lemma X18_scale_leaves_custom_hitboxes_witness :
  (is_set (custom_hitbox_size Fixtures.flat_a) = true ->
   _get_corners (set_scale Fixtures.flat_a 3) = _get_corners Fixtures.flat_a) /\
  collides_with (set_scale Fixtures.flat_a 3) Fixtures.ball
    = collides_with Fixtures.flat_a Fixtures.ball /\
  collides_with Fixtures.ball (set_scale Fixtures.flat_a 3)
    = collides_with Fixtures.ball Fixtures.flat_a.
Proof.
  apply (X18_scale_leaves_custom_hitboxes Fixtures.flat_a Fixtures.ball 3).
  right. reflexivity.
Defined.

(** ** Points outside the bounding box *)

Section Outside.

Variables x y : R.
Variable Q : point -> Prop.

(** Between two vertices with property [Q] the three nested conditions
    of the ray casting loop fail. *)
Hypothesis Q_blocks : forall p1 p2 : point, Q p1 -> Q p2 ->
  float_lt (Rmin (snd p1) (snd p2)) y && float_le y (Rmax (snd p1) (snd p2))
  && float_le x (Rmax (fst p1) (fst p2)) = false.

Lemma pip_loop_blocked (polygon : list point) idx : forall st,
  polygon <> [] -> Forall Q polygon -> Q (pip_p1 st) ->
  exists st', pip_loop x y polygon idx st = Ok st' /\
              pip_inside st' = pip_inside st.
Proof.
  induction idx as [|i idx IH]; intros st Hne HQ Hst; simpl; [eauto|].
  destruct (index_in_range polygon (i mod length polygon)) as [p2 Hp2].
  { apply Nat.mod_upper_bound. destruct polygon; [congruence|simpl; lia]. }
  rewrite Hp2. cbn [bind].
  pose proof (index_Forall _ _ _ _ HQ Hp2) as Hq2.
  unfold pip_step. destruct (pip_p1 st) as [p1x p1y] eqn:E1.
  destruct p2 as [p2x p2y].
  pose proof (Q_blocks (p1x, p1y) (p2x, p2y) Hst Hq2) as Hb.
  cbn [fst snd] in Hb. rewrite Hb. cbn [bind].
  destruct (IH (mkPip (pip_inside st) (p2x, p2y) (pip_xinters st)) Hne HQ Hq2)
    as (st' & Hl & Hi).
  exists st'. split; [exact Hl|exact Hi].
Qed.

Lemma point_in_polygon_blocked (polygon : list point) :
  polygon <> [] -> Forall Q polygon ->
  _point_in_polygon (x, y) polygon = Ok false.
Proof.
  intros Hne HQ. unfold _point_in_polygon.
  destruct polygon as [|p0 rest] eqn:Hp; [congruence|].
  cbn [index nth_error bind]. rewrite <- Hp in *.
  destruct (pip_loop_blocked polygon (seq 1 (length polygon))
              (mkPip false p0 None) Hne HQ) as (st' & Hl & Hi).
  { subst polygon. inversion HQ. assumption. }
  rewrite Hl. cbn [bind]. rewrite Hi. reflexivity.
Qed.

End Outside.

(** X19.  The ray casting test reports a point as outside a non-empty
    polygon whenever the point lies below all its vertices, on or above
    its topmost vertex, or to the right of all its vertices (y grows
    downward). *)
Theorem X19_point_outside_bounding_box (x y : R) (polygon : list point) :
  polygon <> [] ->
  Forall (fun c => snd c < y) polygon \/
  Forall (fun c => y <= snd c) polygon \/
  Forall (fun c => fst c < x) polygon ->
  _point_in_polygon (x, y) polygon = Ok false.
Proof.
  intros Hne [H|[H|H]].
  - apply (point_in_polygon_blocked x y (fun c => snd c < y)); try assumption.
    intros p1 p2 H1 H2.
    replace (float_le y (Rmax (snd p1) (snd p2))) with false.
    + rewrite andb_false_r. reflexivity.
    + symmetry. apply float_le_false. unfold Rmax.
      destruct (Rle_dec _ _); assumption.
  - apply (point_in_polygon_blocked x y (fun c => y <= snd c)); try assumption.
    intros p1 p2 H1 H2.
    replace (float_lt (Rmin (snd p1) (snd p2)) y) with false; [reflexivity|].
    symmetry. apply float_lt_false. unfold Rmin.
    destruct (Rle_dec _ _); assumption.
  - apply (point_in_polygon_blocked x y (fun c => fst c < x)); try assumption.
    intros p1 p2 H1 H2.
    replace (float_le x (Rmax (fst p1) (fst p2))) with false.
    + rewrite andb_false_r. reflexivity.
    + symmetry. apply float_le_false. unfold Rmax.
      destruct (Rle_dec _ _); assumption.
Qed.

Lemma X19_point_outside_bounding_box_witness :
  _point_in_polygon (5, 1 / 2) Fixtures.unit_square = Ok false.
Proof.
  apply (X19_point_outside_bounding_box 5 (1 / 2) Fixtures.unit_square).
  - discriminate.
  - right. right. unfold Fixtures.unit_square. repeat constructor; simpl; lra.
Defined.

(** ** A circle and an unrotated rectangle *)



(** ** Testing against many sprites *)

(** The result of [collides_with_group], when there is one. *)
Lemma group_selects self_id self group : forall hits,
  Overflow.collides_with_group self_id self group = Ok hits ->
  forall i sp, In (i, sp) hits <->
    In (i, sp) group /\ i <> self_id /\
    Overflow.collides_with self sp = Ok true.
Proof.
  induction group as [|[j sj] group IH]; intros hits Hhits i sp.
  - injection Hhits as <-. simpl. tauto.
  - cbn [Overflow.collides_with_group] in Hhits.
    destruct (Nat.eqb_spec j self_id) as [E|E]; cbn [negb] in Hhits.
    + rewrite (IH hits Hhits). simpl. split; [tauto|].
      intros ([H|H] & Hne & Hc); [|tauto].
      injection H as <- <-. contradiction.
    + destruct (Overflow.collides_with self sj) as [hit|e] eqn:Hhit;
        [|discriminate].
      cbn [bind] in Hhits.
      destruct (Overflow.collides_with_group self_id self group)
        as [rest|e] eqn:Hrest; [|discriminate].
      cbn [bind] in Hhits. injection Hhits as <-.
      specialize (IH rest eq_refl i sp).
      destruct hit; simpl; rewrite IH.
      * split.
        -- intros [H|H]; [injection H as <- <-; auto|tauto].
        -- intros ([H|H] & Hne & Hc); [left; exact H|right; tauto].
      * split; [tauto|]. intros ([H|H] & Hne & Hc); [|tauto].
        injection H as <- <-. congruence.
Qed.

Lemma group_returns self_id self group :
  Forall (fun e => fst e <> self_id ->
                   returns (Overflow.collides_with self (snd e))) group ->
  returns (Overflow.collides_with_group self_id self group).
Proof.
  intros Hg. induction Hg as [|[j sj] group Hj _ IH].
  - eexists. reflexivity.
  - cbn [Overflow.collides_with_group].
    destruct (Nat.eqb_spec j self_id) as [E|E]; cbn [negb]; [exact IH|].
    cbn [fst snd] in Hj.
    destruct (Hj E) as [hit ->]. destruct IH as [rest ->]. cbn [bind].
    eexists. reflexivity.
Qed.

(** X21.  [collides_with_group] returns when each test of the caller
    against a sprite of the group other than itself returns, as it does
    for well-formed sprites of ordinary size; and a list that it returns
    holds a sprite exactly when it is in the group, is not the caller
    itself and collides with the caller. *)
Theorem X21_collides_with_group_selects (self_id : nat) (self : AnimatedSprite)
    (group : list (nat * AnimatedSprite)) :
  (Forall (fun e => fst e <> self_id ->
                    returns (Overflow.collides_with self (snd e))) group ->
   returns (Overflow.collides_with_group self_id self group)) /\
  (well_formed self -> Overflow.in_range self ->
   Forall (fun e => well_formed (snd e) /\ Overflow.in_range (snd e)) group ->
   returns (Overflow.collides_with_group self_id self group)) /\
  (forall hits,
     Overflow.collides_with_group self_id self group = Ok hits ->
     forall i sp, In (i, sp) hits <->
       In (i, sp) group /\ i <> self_id /\
       Overflow.collides_with self sp = Ok true).
Proof.
  split; [apply group_returns|]. split; [|apply group_selects].
  intros Hw Hr Hg. apply group_returns.
  eapply Forall_impl; [exact Hg|].
  intros e [We Re] _. apply in_range_collides_with_returns; assumption.
Qed.

Lemma box_b_in_range : Overflow.in_range Fixtures.box_b.
Proof. ordinary_size. Qed.

Lemma box_c_in_range : Overflow.in_range Fixtures.box_c.
Proof. ordinary_size. Qed.

(** Two 64x64 sprites 70 pixels apart do not touch. *)
Lemma boxes_apart :
  Overflow.collides_with Fixtures.box_a Fixtures.box_b = Ok false.
Proof.
  rewrite (collides_with_fits _ _ box_a_in_range box_b_in_range).
  rewrite (unrotated_overlap_test Fixtures.box_a Fixtures.box_b)
    by (try reflexivity; cbn; lra).
  fixture_geometry.
  rewrite (proj2 (float_le_false _ _)); [reflexivity|].
  unfold Rabs; destruct (Rcase_abs _); lra.
Qed.

Lemma boxes_meet :
  Overflow.collides_with Fixtures.box_a Fixtures.box_c = Ok true.
Proof.
  rewrite (collides_with_fits _ _ box_a_in_range box_c_in_range).
  apply boxes_overlapping.
Qed.

(** A group that holds the caller, a sprite out of reach and one that
    overlaps: only the last is reported. *)
Example group_of_boxes :
  Overflow.collides_with_group 0 Fixtures.box_a
    [(0%nat, Fixtures.box_a); (1%nat, Fixtures.box_b); (2%nat, Fixtures.box_c)]
  = Ok [(2%nat, Fixtures.box_c)].
Proof.
  cbn [Overflow.collides_with_group Nat.eqb negb].
  rewrite boxes_apart, boxes_meet. reflexivity.
Qed.

(** The result of [collides_with_any], when there is one. *)
Lemma any_finds sprite walls : forall b,
  WallDemo.collides_with_any sprite walls = Ok b ->
  (b = true <->
   exists w, In w walls /\ Overflow.collides_with sprite w = Ok true).
Proof.
  induction walls as [|w walls IH]; intros b Hb.
  - injection Hb as <-. split; [discriminate|]. intros (w & [] & _).
  - cbn [WallDemo.collides_with_any] in Hb.
    destruct (Overflow.collides_with sprite w) as [hit|e] eqn:Hhit;
      [|discriminate].
    cbn [bind] in Hb. destruct hit.
    + injection Hb as <-. split; [|reflexivity].
      intros _. exists w. simpl. auto.
    + rewrite (IH b Hb). split.
      * intros (w' & Hin & Hc). exists w'. simpl. auto.
      * intros (w' & [E|Hin] & Hc); [subst w'; congruence|eauto].
Qed.

Lemma any_returns sprite walls :
  Forall (fun w => returns (Overflow.collides_with sprite w)) walls ->
  returns (WallDemo.collides_with_any sprite walls).
Proof.
  intros Hw. induction Hw as [|w walls Hr _ IH].
  - eexists. reflexivity.
  - cbn [WallDemo.collides_with_any]. destruct Hr as [hit ->]. cbn [bind].
    destruct hit; [eexists; reflexivity|exact IH].
Qed.

(** X22.  [collides_with_any] of the wall demo returns when each test
    of the sprite against a sprite of the list returns, as it does for
    well-formed sprites of ordinary size; and a boolean that it returns
    is [True] exactly when the sprite collides with some sprite of the
    list. *)
Theorem X22_collides_with_any_finds (sprite : AnimatedSprite)
    (walls : list AnimatedSprite) :
  (Forall (fun w => returns (Overflow.collides_with sprite w)) walls ->
   returns (WallDemo.collides_with_any sprite walls)) /\
  (well_formed sprite -> Overflow.in_range sprite ->
   Forall (fun w => well_formed w /\ Overflow.in_range w) walls ->
   returns (WallDemo.collides_with_any sprite walls)) /\
  (forall b,
     WallDemo.collides_with_any sprite walls = Ok b ->
     (b = true <->
      exists w, In w walls /\ Overflow.collides_with sprite w = Ok true)).
Proof.
  split; [apply any_returns|]. split; [|apply any_finds].
  intros Hw Hr Hws. apply any_returns.
  eapply Forall_impl; [exact Hws|].
  intros w [Ww Rw]. apply in_range_collides_with_returns; assumption.
Qed.

(** Against the two boxes the answer is [True], found at the second;
    against the sprite beyond the float range the call raises. *)
Example any_of_boxes :
  WallDemo.collides_with_any Fixtures.box_a [Fixtures.box_b; Fixtures.box_c]
  = Ok true /\
  WallDemo.collides_with_any Fixtures.far_big [Fixtures.box_a]
  = Raise OverflowError.
Proof.
  cbn [WallDemo.collides_with_any].
  rewrite boxes_apart, boxes_meet, far_big_raises. split; reflexivity.
Qed.

(** ** Drawing a circle hitbox *)

(** X23.  For a circle hitbox with radius [r >= 0] the debug overlay is a
    circle around the collision centre whose radius is [r] cut down to a
    whole number of pixels: it is never larger than the collision radius
    and less than one pixel smaller. *)
Theorem X23_debug_circle_radius (s : AnimatedSprite) (r : R) :
  hitbox_shape s = Circle -> hitbox_radius s = Some r -> 0 <= r ->
  exists n : Z,
    debug_draw s = Ok (draw_circle (hitbox_center s) n) /\
    IZR n <= r < IZR n + 1.
Proof.
  intros Hs Hr Hr0. exists (py_int r). split.
  - unfold debug_draw, radius_of. rewrite Hs, Hr. reflexivity.
  - rewrite (py_int_floor r Hr0). destruct (base_Int_part r). lra.
Qed.

Lemma X23_debug_circle_radius_witness :
  exists n : Z,
    debug_draw Fixtures.ball = Ok (draw_circle (hitbox_center Fixtures.ball) n) /\
    IZR n <= 30 < IZR n + 1.
Proof.
  apply (X23_debug_circle_radius Fixtures.ball 30); try reflexivity. lra.
Defined.

End SpriteExtra.
